(** * The wiring layer of the pipeline graph: ports, port groups, nodes

    A shallow embedding of [src/pipeline/Node.cpp]: the ports of a node
    ([Output], [Input]), its port groups ([OutputMap], [InputMap]), the
    enumeration of the ports of a node, the connections of an output and the
    fan-out of a message to the queues of the connected inputs.

    Objects that the code reaches through pointers or references live in a
    [World], a typed memory indexed by address; a method that changes an
    object returns the new world. *)

From Stdlib Require Import Ascii.
From stdpp Require Import base numbers option list functions strings pretty gmap.

(** ** Outcomes

    A call either returns, or leaves through a C++ exception or a null
    dereference. *)

Inductive error :=
  | BadWeakPtr   (* std::bad_weak_ptr: a shared_ptr built from an expired weak_ptr *)
  | NullDeref    (* operator-> on a null shared_ptr *)
  | OutOfRange.  (* std::out_of_range thrown by at() *)

Inductive result (A : Type) : Type :=
  | Ok (a : A)
  | Err (e : error).
Arguments Ok {A} a.
Arguments Err {A} e.

#[global] Instance result_ret : MRet result := λ A a, Ok a.
#[global] Instance result_bind : MBind result :=
  λ A B f m, match m with Ok a => f a | Err e => Err e end.

(** ** Data *)

(** Addresses of objects in memory. *)
Abbreviation addr := nat.

(** [Node::Id] is a 64-bit integer; identifiers are only compared. *)
Abbreviation Id := Z.

(** [Node::Connection]: the six fields that [Connection::Connection] fills
    and [Connection::operator==] compares. *)
Record Connection := mkConnection {
  outputId : Id;
  outputName : string;
  outputGroup : string;
  inputId : Id;
  inputName : string;
  inputGroup : string;
}.

#[global] Instance Connection_eq_dec : EqDecision Connection.
Proof. solve_decision. Defined.

(** [Node::Output]: a reference to the owning node, a group and a name. *)
Record Output := mkOutput {
  out_parent : addr;
  out_group : string;
  out_name : string;
}.

(** Modelled from the spec: the queue class of an input is declared
    outside the sources.  The spec gives it [send], which takes a message,
    and [trySend], which takes a message and reports whether it was
    accepted. *)
Class MessageQueue (Q Msg : Type) := {
  queue_send : Q → Msg → Q;
  queue_trySend : Q → Msg → Q * bool;
}.

(** [Node::Input]: owning node, group, name, the queue, the three optional
    overrides and the defaults they fall back to. *)
Record Input (Q : Type) := mkInput {
  in_parent : addr;
  in_group : string;
  in_name : string;
  in_queue : Q;
  in_blocking : option bool;
  in_queueSize : option Z;
  in_waitForMessage : option bool;
  in_defaultBlocking : bool;
  in_defaultQueueSize : Z;
  in_defaultWaitForMessage : bool;
}.
Arguments mkInput {Q}.
Arguments in_parent {Q}.
Arguments in_group {Q}.
Arguments in_name {Q}.
Arguments in_queue {Q}.
Arguments in_blocking {Q}.
Arguments in_queueSize {Q}.
Arguments in_waitForMessage {Q}.
Arguments in_defaultBlocking {Q}.
Arguments in_defaultQueueSize {Q}.
Arguments in_defaultWaitForMessage {Q}.

(** ** Formatting *)

(** The double quote character, as a one-character string. *)
Definition dquote : string := String (Ascii.ascii_of_nat 34) EmptyString.

(** [fmt::format] restricted to what the two [toString] use: each
    placeholder, an opening brace directly followed by a closing one, is
    replaced by the next argument, every other character is copied.  (With
    too few arguments fmt raises; both call sites pass as many arguments as
    the format has placeholders, and the model then prints nothing.) *)
Fixpoint fmt_format (fmt : string) (args : list string) : string :=
  match fmt with
  | EmptyString => EmptyString
  | String c rest =>
      match rest with
      | String c' rest' =>
          if bool_decide (c = "{"%char) && bool_decide (c' = "}"%char)
          then match args with
               | a :: args' => a +:+ fmt_format rest' args'
               | [] => fmt_format rest' []
               end
          else String c (fmt_format rest args)
      | EmptyString => String c EmptyString
      end
  end.

(** The format string of a grouped port: placeholder, bracket, quote,
    placeholder, quote, bracket. *)
Definition grouped_format : string := "{}[" +:+ dquote +:+ "{}" +:+ dquote +:+ "]".

Definition Output_toString (o : Output) : string :=
  if bool_decide (out_group o = "") then fmt_format "{}" [out_name o]
  else fmt_format grouped_format [out_group o; out_name o].

Definition Input_toString {Q} (i : Input Q) : string :=
  if bool_decide (in_group i = "") then fmt_format "{}" [in_name i]
  else fmt_format grouped_format [in_group i; in_name i].

(** ** Delivery policy of an input *)

Section InputPolicy.
Context {Q : Type}.

Definition set_in_blocking (i : Input Q) (v : option bool) : Input Q :=
  mkInput (in_parent i) (in_group i) (in_name i) (in_queue i) v (in_queueSize i)
          (in_waitForMessage i) (in_defaultBlocking i) (in_defaultQueueSize i)
          (in_defaultWaitForMessage i).

Definition set_in_queueSize (i : Input Q) (v : option Z) : Input Q :=
  mkInput (in_parent i) (in_group i) (in_name i) (in_queue i) (in_blocking i) v
          (in_waitForMessage i) (in_defaultBlocking i) (in_defaultQueueSize i)
          (in_defaultWaitForMessage i).

Definition set_in_waitForMessage (i : Input Q) (v : option bool) : Input Q :=
  mkInput (in_parent i) (in_group i) (in_name i) (in_queue i) (in_blocking i)
          (in_queueSize i) v (in_defaultBlocking i) (in_defaultQueueSize i)
          (in_defaultWaitForMessage i).

Definition set_in_queue (i : Input Q) (q : Q) : Input Q :=
  mkInput (in_parent i) (in_group i) (in_name i) q (in_blocking i)
          (in_queueSize i) (in_waitForMessage i) (in_defaultBlocking i)
          (in_defaultQueueSize i) (in_defaultWaitForMessage i).

Definition set_in_group_name (i : Input Q) (g n : string) : Input Q :=
  mkInput (in_parent i) g n (in_queue i) (in_blocking i)
          (in_queueSize i) (in_waitForMessage i) (in_defaultBlocking i)
          (in_defaultQueueSize i) (in_defaultWaitForMessage i).

Definition Input_setBlocking (i : Input Q) (blocking : bool) : Input Q :=
  set_in_blocking i (Some blocking).

Definition Input_getBlocking (i : Input Q) : bool :=
  match in_blocking i with
  | Some b => b
  | None => in_defaultBlocking i
  end.

Definition Input_setQueueSize (i : Input Q) (size : Z) : Input Q :=
  set_in_queueSize i (Some size).

Definition Input_getQueueSize (i : Input Q) : Z :=
  match in_queueSize i with
  | Some n => n
  | None => in_defaultQueueSize i
  end.

Definition Input_setWaitForMessage (i : Input Q) (waitForMessage : bool) : Input Q :=
  set_in_waitForMessage i (Some waitForMessage).

Definition Input_getWaitForMessage (i : Input Q) : bool :=
  default (in_defaultWaitForMessage i) (in_waitForMessage i).

Definition Input_setReusePreviousMessage (i : Input Q) (waitForMessage : bool) : Input Q :=
  set_in_waitForMessage i (Some (negb waitForMessage)).

Definition Input_getReusePreviousMessage (i : Input Q) : bool :=
  negb (default (in_defaultWaitForMessage i) (in_waitForMessage i)).

(** A call to one of the two setters of the wait policy. *)
Inductive policy_call :=
  | CallSetWaitForMessage (b : bool)
  | CallSetReusePreviousMessage (b : bool).

Definition run_policy_call (i : Input Q) (c : policy_call) : Input Q :=
  match c with
  | CallSetWaitForMessage b => Input_setWaitForMessage i b
  | CallSetReusePreviousMessage b => Input_setReusePreviousMessage i b
  end.

(** The calls of a sequence, made one after the other. *)
Definition run_policy_calls (i : Input Q) (cs : list policy_call) : Input Q :=
  fold_left run_policy_call cs i.
End InputPolicy.

(** ** Tables

    The declarations of the four tables of a node and of the container
    that [OutputMap] and [InputMap] derive from are in the header of the
    node, which is not among the sources.  The spec describes them as
    insertion-ordered mappings from a string key, so a table is the list of
    its entries in insertion order, with the four operations the code
    calls: [count], [at], [insert] and the assignment through a
    subscript. *)

Section Table.
Context {V : Type}.

(** Modelled from the spec: [count(key)] of the container declared in the
    header, the number of entries under the key. *)
Definition table_count (t : list (string * V)) (key : string) : nat :=
  length (filter (λ kv, kv.1 = key) t).

(** Modelled from the spec: [at(key)] of the container declared in the
    header; it throws when the key is absent. *)
Fixpoint table_at (t : list (string * V)) (key : string) : result V :=
  match t with
  | [] => Err OutOfRange
  | kv :: t' => if bool_decide (kv.1 = key) then Ok kv.2 else table_at t' key
  end.

(** Modelled from the spec: [insert(make_pair(key, v))] of the container
    declared in the header; a key that is present keeps its entry, an
    absent key is entered last. *)
Definition table_insert (t : list (string * V)) (key : string) (v : V)
    : list (string * V) :=
  if bool_decide (table_count t key = 0) then t ++ [(key, v)] else t.

(** Modelled from the spec: the assignment [t[key] = v] of the container
    declared in the header; the entry of a present key is overwritten
    where it stands, an absent key is entered last. *)
Fixpoint table_assign (t : list (string * V)) (key : string) (v : V)
    : list (string * V) :=
  match t with
  | [] => [(key, v)]
  | kv :: t' =>
      if bool_decide (kv.1 = key) then (kv.1, v) :: t'
      else kv :: table_assign t' key v
  end.
End Table.

(** ** Port groups, nodes, pipelines *)

(** [Node::OutputMap]: the default output, the name of the group and the
    entries.  Every element of the container is an object of its own,
    whose address is what [&kv.second] and the reference returned by [at]
    denote; an entry holds that address. *)
Record OutputMap := mkOutputMap {
  om_defaultOutput : Output;
  om_name : string;
  om_entries : list (string * addr);
}.

Record InputMap (Q : Type) := mkInputMap {
  im_defaultInput : Input Q;
  im_name : string;
  im_entries : list (string * addr);
}.
Arguments mkInputMap {Q}.
Arguments im_defaultInput {Q}.
Arguments im_name {Q}.
Arguments im_entries {Q}.

(** [Node]: the weak reference to the owning pipeline, the identifier and
    the four tables of pointers to ports and to port groups. *)
Record Node := mkNode {
  node_parent : addr;
  node_id : Id;
  outputRefs : list (string * addr);
  inputRefs : list (string * addr);
  outputMapRefs : list (string * addr);
  inputMapRefs : list (string * addr);
}.

(** Modelled from the spec: the pipeline is declared in a header that is
    not among the sources.  The spec gives it a registry of nodes keyed by
    identifier, with [getNode] answering a node reference or nothing, and
    the list of all connections, answered by [getConnections]. *)
Record PipelineImpl := mkPipelineImpl {
  nodeMap : gmap Z addr;
  connections : list Connection;
}.

(** Modelled from the spec: [getConnections] of the pipeline, declared
    outside the sources, answers the list of all connections. *)
Definition Pipeline_getConnections (pl : PipelineImpl) : list Connection :=
  connections pl.

(** Modelled from the spec: [getNode] of the pipeline, declared outside the
    sources, answers the node registered under the identifier, or null. *)
Definition Pipeline_getNode (pl : PipelineImpl) (id : Id) : option addr :=
  nodeMap pl !! id.

(** ** The world *)

Section World.
Context {Q Msg : Type} `{!MessageQueue Q Msg}.

(** The objects in memory, by kind.  Every address holds an object of
    each kind: the ports and groups a node points to are its own members,
    and pointers to objects that are gone are not modelled.  A pipeline
    that has been destroyed leaves [None]: weak references to it expire.
    [w_next] is the address of the next object to be created. *)
Record World := mkWorld {
  w_outputs : addr → Output;
  w_inputs : addr → Input Q;
  w_outputMaps : addr → OutputMap;
  w_inputMaps : addr → InputMap Q;
  w_nodes : addr → Node;
  w_pipelines : addr → option PipelineImpl;
  w_next : addr;
}.

Definition set_w_inputs (w : World) (f : addr → Input Q) : World :=
  mkWorld (w_outputs w) f (w_outputMaps w) (w_inputMaps w) (w_nodes w)
          (w_pipelines w) (w_next w).

(** [weak_ptr::lock]: the pipeline, or null when it has expired. *)
Definition weak_lock (w : World) (p : addr) : option addr :=
  match w_pipelines w p with
  | Some _ => Some p
  | None => None
  end.

(** [Node::getParentPipeline]: a shared pointer is built from the weak
    one, which throws when the pipeline has expired. *)
Definition Node_getParentPipeline (w : World) (n : Node) : result PipelineImpl :=
  match w_pipelines w (node_parent n) with
  | Some pl => Ok pl
  | None => Err BadWeakPtr
  end.

(** *** Connections of an output *)

Definition Output_getConnections (w : World) (o : Output) : result (list Connection) :=
  pipeline ← Node_getParentPipeline w (w_nodes w (out_parent o));
  let allConnections := Pipeline_getConnections pipeline in
  mret (fold_left
          (λ myConnections conn,
             if bool_decide (outputId conn = node_id (w_nodes w (out_parent o)))
                && bool_decide (outputName conn = out_name o)
                && bool_decide (outputGroup conn = out_group o)
             then myConnections ++ [conn]
             else myConnections)
          allConnections []).

Definition Output_isSamePipeline (w : World) (o : Output) (i : Input Q) : bool :=
  match weak_lock w (node_parent (w_nodes w (out_parent o))) with
  | Some outputPipeline =>
      bool_decide (Some outputPipeline
                   = weak_lock w (node_parent (w_nodes w (in_parent i))))
  | None => false
  end.

(** *** Enumeration of the ports of a node

    The overloads for a constant node have the same two loops. *)

Definition Node_getOutputRefs (w : World) (n : Node) : list addr :=
  let tmpOutputRefs :=
    fold_left (λ tmp kv, tmp ++ [kv.2]) (outputRefs n) [] in
  fold_left
    (λ tmp kvMap,
       fold_left (λ tmp kv, tmp ++ [kv.2])
                 (om_entries (w_outputMaps w kvMap.2)) tmp)
    (outputMapRefs n) tmpOutputRefs.

Definition Node_getInputRefs (w : World) (n : Node) : list addr :=
  let tmpInputRefs :=
    fold_left (λ tmp kv, tmp ++ [kv.2]) (inputRefs n) [] in
  fold_left
    (λ tmp kvMap,
       fold_left (λ tmp kv, tmp ++ [kv.2])
                 (im_entries (w_inputMaps w kvMap.2)) tmp)
    (inputMapRefs n) tmpInputRefs.

(** [getOutputs] and [getInputs] copy the ports the references point to. *)
Definition Node_getOutputs (w : World) (n : Node) : list Output :=
  fold_left (λ result x, result ++ [w_outputs w x]) (Node_getOutputRefs w n) [].

Definition Node_getInputs (w : World) (n : Node) : list (Input Q) :=
  fold_left (λ result x, result ++ [w_inputs w x]) (Node_getInputRefs w n) [].

(** The loop of [getOutputRef]: the first reference whose port has the
    group and the name, null when the loop runs to its end. *)
Fixpoint scan_outputs (w : World) (refs : list addr) (group name : string)
    : option addr :=
  match refs with
  | [] => None
  | out :: refs' =>
      if bool_decide (out_group (w_outputs w out) = group)
         && bool_decide (out_name (w_outputs w out) = name)
      then Some out
      else scan_outputs w refs' group name
  end.

Definition Node_getOutputRef2 (w : World) (n : Node) (group name : string)
    : option addr :=
  scan_outputs w (Node_getOutputRefs w n) group name.

Definition Node_getOutputRef (w : World) (n : Node) (name : string) : option addr :=
  Node_getOutputRef2 w n "" name.

Fixpoint scan_inputs (w : World) (refs : list addr) (group name : string)
    : option addr :=
  match refs with
  | [] => None
  | input :: refs' =>
      if bool_decide (in_group (w_inputs w input) = group)
         && bool_decide (in_name (w_inputs w input) = name)
      then Some input
      else scan_inputs w refs' group name
  end.

Definition Node_getInputRef2 (w : World) (n : Node) (group name : string)
    : option addr :=
  scan_inputs w (Node_getInputRefs w n) group name.

Definition Node_getInputRef (w : World) (n : Node) (name : string) : option addr :=
  Node_getInputRef2 w n "" name.
End World.
Arguments World Q : clear implicits.

(** ** Message fan-out *)

Section Delivery.
Context {Q Msg : Type} `{!MessageQueue Q Msg}.

(** [input->queue.send(msg)]: the queue of the input at [input] takes
    the message. *)
Definition queue_send_at (w : World Q) (input : addr) (msg : Msg) : World Q :=
  set_w_inputs w
    (<[input := set_in_queue (w_inputs w input)
                  (queue_send (in_queue (w_inputs w input)) msg)]> (w_inputs w)).

(** [input->queue.trySend(msg)]: the same with the flag of the queue. *)
Definition queue_trySend_at (w : World Q) (input : addr) (msg : Msg)
    : World Q * bool :=
  let r := queue_trySend (in_queue (w_inputs w input)) msg in
  (set_w_inputs w (<[input := set_in_queue (w_inputs w input) r.1]> (w_inputs w)),
   r.2).

(** The test of the inner loops: the input has the group and the name of
    the input end of the connection. *)
Definition corresponds (w : World Q) (conn : Connection) (input : addr) : bool :=
  bool_decide (in_group (w_inputs w input) = inputGroup conn)
  && bool_decide (in_name (w_inputs w input) = inputName conn).

(** The inner loop of [send]. *)
Definition send_inputs (w : World Q) (conn : Connection) (inputs : list addr)
    (msg : Msg) : World Q :=
  fold_left
    (λ w input, if corresponds w conn input then queue_send_at w input msg else w)
    inputs w.

(** The outer loop of [send]: the node of the input end is looked up and
    dereferenced, then its inputs are enumerated and searched. *)
Fixpoint send_conns (w : World Q) (o : Output) (conns : list Connection)
    (msg : Msg) : result (World Q) :=
  match conns with
  | [] => Ok w
  | conn :: conns' =>
      pipeline ← Node_getParentPipeline w (w_nodes w (out_parent o));
      match Pipeline_getNode pipeline (inputId conn) with
      | None => Err NullDeref
      | Some node =>
          let inputs := Node_getInputRefs w (w_nodes w node) in
          send_conns (send_inputs w conn inputs msg) o conns' msg
      end
  end.

Definition Output_send (w : World Q) (o : Output) (msg : Msg) : result (World Q) :=
  conns ← Output_getConnections w o;
  send_conns w o conns msg.

(** The inner loop of [trySend]: [success &= ...] evaluates the call
    whatever [success] holds. *)
Definition trySend_inputs (w : World Q) (conn : Connection) (inputs : list addr)
    (msg : Msg) (success : bool) : World Q * bool :=
  fold_left
    (λ (st : World Q * bool) input,
       if corresponds st.1 conn input
       then let r := queue_trySend_at st.1 input msg in (r.1, st.2 && r.2)
       else st)
    inputs (w, success).

Fixpoint trySend_conns (w : World Q) (o : Output) (conns : list Connection)
    (msg : Msg) (success : bool) : result (World Q * bool) :=
  match conns with
  | [] => Ok (w, success)
  | conn :: conns' =>
      pipeline ← Node_getParentPipeline w (w_nodes w (out_parent o));
      match Pipeline_getNode pipeline (inputId conn) with
      | None => Err NullDeref
      | Some node =>
          let inputs := Node_getInputRefs w (w_nodes w node) in
          let st := trySend_inputs w conn inputs msg success in
          trySend_conns st.1 o conns' msg st.2
      end
  end.

Definition Output_trySend (w : World Q) (o : Output) (msg : Msg)
    : result (World Q * bool) :=
  conns ← Output_getConnections w o;
  trySend_conns w o conns msg true.
End Delivery.

(** ** Subscripts of port groups and registration *)

Section Maps.
Context {Q : Type}.

(** [insert(std::make_pair(key, output))] on the group at [m]: a new
    element is created for an absent key. *)
Definition OutputMap_insert (w : World Q) (m : addr) (key : string)
    (output : Output) : World Q :=
  let map := w_outputMaps w m in
  if bool_decide (table_count (om_entries map) key = 0) then
    mkWorld (<[w_next w := output]> (w_outputs w)) (w_inputs w)
            (<[m := mkOutputMap (om_defaultOutput map) (om_name map)
                      (table_insert (om_entries map) key (w_next w))]>
               (w_outputMaps w))
            (w_inputMaps w) (w_nodes w) (w_pipelines w) (S (w_next w))
  else w.

(** [OutputMap::operator[]] on the group at [m] *)
Definition OutputMap_index (w : World Q) (m : addr) (key : string)
    : result (World Q * addr) :=
  let map := w_outputMaps w m in
  let w' :=
    if bool_decide (table_count (om_entries map) key = 0) then
      let output := om_defaultOutput map in
      let output := mkOutput (out_parent output) (om_name map) (out_name output) in
      let output := mkOutput (out_parent output) (out_group output) key in
      OutputMap_insert w m key output
    else w in
  ref ← table_at (om_entries (w_outputMaps w' m)) key;
  mret (w', ref).

Definition InputMap_insert (w : World Q) (m : addr) (key : string)
    (input : Input Q) : World Q :=
  let map := w_inputMaps w m in
  if bool_decide (table_count (im_entries map) key = 0) then
    mkWorld (w_outputs w) (<[w_next w := input]> (w_inputs w)) (w_outputMaps w)
            (<[m := mkInputMap (im_defaultInput map) (im_name map)
                      (table_insert (im_entries map) key (w_next w))]>
               (w_inputMaps w))
            (w_nodes w) (w_pipelines w) (S (w_next w))
  else w.

(** [InputMap::operator[]] on the group at [m] *)
Definition InputMap_index (w : World Q) (m : addr) (key : string)
    : result (World Q * addr) :=
  let map := w_inputMaps w m in
  let w' :=
    if bool_decide (table_count (im_entries map) key = 0) then
      let input := im_defaultInput map in
      let input := set_in_group_name input (im_name map) (in_name input) in
      let input := set_in_group_name input (in_group input) key in
      InputMap_insert w m key input
    else w in
  ref ← table_at (im_entries (w_inputMaps w' m)) key;
  mret (w', ref).

(** A setter called through a reference to an input. *)
Definition Input_setQueueSize_at (w : World Q) (input : addr) (size : Z) : World Q :=
  set_w_inputs w (<[input := Input_setQueueSize (w_inputs w input) size]> (w_inputs w)).

(** *** Registration of ports and port groups with the node *)

Definition Node_setOutputRefs (w : World Q) (n : Node) (outRef : addr) : Node :=
  mkNode (node_parent n) (node_id n)
         (table_assign (outputRefs n) (out_name (w_outputs w outRef)) outRef)
         (inputRefs n) (outputMapRefs n) (inputMapRefs n).

Definition Node_setInputRefs (w : World Q) (n : Node) (inRef : addr) : Node :=
  mkNode (node_parent n) (node_id n) (outputRefs n)
         (table_assign (inputRefs n) (in_name (w_inputs w inRef)) inRef)
         (outputMapRefs n) (inputMapRefs n).

Definition Node_setOutputMapRefs (w : World Q) (n : Node) (outMapRef : addr) : Node :=
  mkNode (node_parent n) (node_id n) (outputRefs n) (inputRefs n)
         (table_assign (outputMapRefs n) (om_name (w_outputMaps w outMapRef)) outMapRef)
         (inputMapRefs n).

Definition Node_setInputMapRefs (w : World Q) (n : Node) (inMapRef : addr) : Node :=
  mkNode (node_parent n) (node_id n) (outputRefs n) (inputRefs n) (outputMapRefs n)
         (table_assign (inputMapRefs n) (im_name (w_inputMaps w inMapRef)) inMapRef).

(** The overloads that take an initializer list register its elements in
    order. *)
Definition Node_setOutputRefs_list (w : World Q) (n : Node) (l : list addr) : Node :=
  fold_left (Node_setOutputRefs w) l n.

Definition Node_setInputRefs_list (w : World Q) (n : Node) (l : list addr) : Node :=
  fold_left (Node_setInputRefs w) l n.

Definition Node_setOutputMapRefs_list (w : World Q) (n : Node) (l : list addr) : Node :=
  fold_left (Node_setOutputMapRefs w) l n.

Definition Node_setInputMapRefs_list (w : World Q) (n : Node) (l : list addr) : Node :=
  fold_left (Node_setInputMapRefs w) l n.

(** The registrations of a concrete node, as its constructor makes them:
singular outputs, singular inputs, output groups, input groups. *)
Definition Node_register (w : World Q) (n : Node)
    (outs ins outMaps inMaps : list addr) : Node :=
  Node_setInputMapRefs_list w
    (Node_setOutputMapRefs_list w
       (Node_setInputRefs_list w (Node_setOutputRefs_list w n outs) ins) outMaps)
    inMaps.
End Maps.

(** ** A queue and two worlds for the examples *)

(** A bounded queue of numbered messages, one instance of the interface the
    inputs rely on: [trySend] refuses a message when the queue is full,
    [send] makes room by dropping the oldest one. *)
Record BoundedQueue := mkBoundedQueue {
  bq_items : list nat;
  bq_capacity : nat;
}.

Definition bq_push (q : BoundedQueue) (msg : nat) : BoundedQueue :=
  mkBoundedQueue (bq_items q ++ [msg]) (bq_capacity q).

#[global] Instance BoundedQueue_queue : MessageQueue BoundedQueue nat := {|
  queue_send q msg :=
    if bool_decide (length (bq_items q) < bq_capacity q) then bq_push q msg
    else mkBoundedQueue (tail (bq_items q) ++ [msg]) (bq_capacity q);
  queue_trySend q msg :=
    if bool_decide (length (bq_items q) < bq_capacity q) then (bq_push q msg, true)
    else (q, false);
|}.

(** An input of the consumer node of the examples. *)
Definition demo_input (group name : string) (items : list nat) (capacity : nat)
    : Input BoundedQueue :=
  mkInput 11 group name (mkBoundedQueue items capacity) None None None true 8 false.

Definition demo_connection (name group : string) : Connection :=
  mkConnection 1 "out" "" 2 name group.

(** A pipeline at address 0 with a producer (node 1 at address 10) and a
    consumer (node 2 at address 11).  The output [out] of the producer is
    linked to the inputs [a], [b], [c] of the consumer, of which [b] has a
    full queue, and to the input [x] of group [in]; the consumer owns two
    inputs of that group and name, one registered directly (address 34) and
    one in the port group [in] (address 33). *)
Definition demo_world : World BoundedQueue :=
  mkWorld
    (λ _, mkOutput 10 "" "out")
    (<[30 := demo_input "" "a" [] 2]>
       (<[31 := demo_input "" "b" [7] 1]>
          (<[32 := demo_input "" "c" [] 2]>
             (λ _, demo_input "in" "x" [] 2))))
    (λ _, mkOutputMap (mkOutput 10 "" "") "outs" [])
    (λ _, mkInputMap (demo_input "" "" [] 2) "in" [("x", 33)])
    (<[10 := mkNode 0 1 [("out", 20)] [] [] []]>
       (λ _, mkNode 0 2 [] [("a", 30); ("b", 31); ("c", 32); ("x", 34)] []
                    [("in", 40)]))
    (<[0 := Some (mkPipelineImpl
                    {[ 1%Z := 10; 2%Z := 11 ]}
                    [ demo_connection "a" "";
                      mkConnection 1 "other" "" 2 "a" "";
                      demo_connection "b" "";
                      mkConnection 2 "out" "" 2 "c" "";
                      demo_connection "c" "" ])]>
       (λ _, None))
    50.

Definition demo_out : Output := mkOutput 10 "" "out".

(** The same nodes in a pipeline whose first connection names a node, 3,
    that is not registered. *)
Definition demo_world_gone : World BoundedQueue :=
  mkWorld (w_outputs demo_world) (w_inputs demo_world) (w_outputMaps demo_world)
          (w_inputMaps demo_world) (w_nodes demo_world)
          (<[0 := Some (mkPipelineImpl
                          {[ 1%Z := 10; 2%Z := 11 ]}
                          [ mkConnection 1 "out" "" 3 "a" "";
                            demo_connection "a" "" ])]>
             (λ _, None))
          50.

(** The same nodes in a pipeline whose only connection leads to an input
    [z] of node 2, a name no input of that node has. *)
Definition demo_world_typo : World BoundedQueue :=
  mkWorld (w_outputs demo_world) (w_inputs demo_world) (w_outputMaps demo_world)
          (w_inputMaps demo_world) (w_nodes demo_world)
          (<[0 := Some (mkPipelineImpl {[ 1%Z := 10; 2%Z := 11 ]}
                                       [demo_connection "z" ""])]>
             (λ _, None))
          50.

(** ** Notions used to state the fan-out *)

Section FanOut.
Context {Q Msg : Type} `{!MessageQueue Q Msg}.

(** An input has the group and the name of the input end of a connection. *)
Definition matches (w : World Q) (conn : Connection) (input : addr) : Prop :=
  in_group (w_inputs w input) = inputGroup conn
  ∧ in_name (w_inputs w input) = inputName conn.

#[global] Instance matches_dec (w : World Q) (conn : Connection) (input : addr) :
  Decision (matches w conn input).
Proof. unfold matches. apply _. Defined.

(** The inputs a connection leads to: those of the enumeration of the node
    registered under [inputId] that match, in the order of the enumeration
    and as often as they are enumerated. *)
Definition connection_targets (w : World Q) (pl : PipelineImpl) (conn : Connection)
    : list addr :=
  match Pipeline_getNode pl (inputId conn) with
  | Some node => filter (matches w conn) (Node_getInputRefs w (w_nodes w node))
  | None => []
  end.

(** The inputs a list of connections leads to, connection after connection. *)
Definition fanout_targets (w : World Q) (pl : PipelineImpl) (conns : list Connection)
    : list addr :=
  conns ≫= connection_targets w pl.

(** Every connection names a node that the pipeline has registered. *)
Definition resolvable (pl : PipelineImpl) (conns : list Connection) : Prop :=
  Forall (λ conn, is_Some (Pipeline_getNode pl (inputId conn))) conns.

(** A blocking delivery to each input of a list, one after the other. *)
Definition deliver_all (w : World Q) (targets : list addr) (msg : Msg) : World Q :=
  fold_left (λ w input, queue_send_at w input msg) targets w.

(** A non-blocking delivery to each input of a list, one after the other,
    with the flag of each attempt. *)
Fixpoint attempt_all (w : World Q) (targets : list addr) (msg : Msg)
    : World Q * list bool :=
  match targets with
  | [] => (w, [])
  | input :: targets' =>
      let r := queue_trySend_at w input msg in
      let rest := attempt_all r.1 targets' msg in
      (rest.1, r.2 :: rest.2)
  end.

(** How often an address stands in a list. *)
Definition occurrences (a : addr) (l : list addr) : nat :=
  length (filter (λ x, x = a) l).

(** Two worlds that differ at most in the contents of the queues. *)
Definition only_queues_differ (w w' : World Q) : Prop :=
  w_outputs w' = w_outputs w ∧ w_outputMaps w' = w_outputMaps w
  ∧ w_inputMaps w' = w_inputMaps w ∧ w_nodes w' = w_nodes w
  ∧ w_pipelines w' = w_pipelines w ∧ w_next w' = w_next w
  ∧ ∀ a, set_in_queue (w_inputs w' a) (in_queue (w_inputs w a)) = w_inputs w a.
End FanOut.

(** ** Construction, connection records and resources *)

Section Construction.
Context {Q : Type}.

(** [Node::Node]: the pipeline and the identifier are stored, the four
    tables start empty. *)
Definition Node_new (p : addr) (nodeId : Id) : Node := mkNode p nodeId [] [] [] [].

(** The root the constructor hands to the asset manager of the node:
    the identifier in decimal between two fixed parts. *)
Definition Node_assetRoot (nodeId : Id) : string :=
  "/node/" +:+ pretty nodeId +:+ "/".

(** [Node::Connection::Connection]: the two ends are read off the ports and
    their owning nodes. *)
Definition Connection_make (w : World Q) (out : Output) (inp : Input Q) : Connection :=
  mkConnection (node_id (w_nodes w (out_parent out))) (out_name out) (out_group out)
               (node_id (w_nodes w (in_parent inp))) (in_name inp) (in_group inp).

(** [Node::Connection::operator==] *)
Definition Connection_eq (lhs rhs : Connection) : bool :=
  bool_decide (outputId lhs = outputId rhs)
  && bool_decide (outputName lhs = outputName rhs)
  && bool_decide (outputGroup lhs = outputGroup rhs)
  && bool_decide (inputId lhs = inputId rhs)
  && bool_decide (inputName lhs = inputName rhs)
  && bool_decide (inputGroup lhs = inputGroup rhs).

(** The two constructors of [OutputMap] and of [InputMap]: with a name, and
    with the default port alone, which leaves the name empty. *)
Definition OutputMap_new (name : string) (defaultOutput : Output) : OutputMap :=
  mkOutputMap defaultOutput name [].

Definition OutputMap_new_unnamed (defaultOutput : Output) : OutputMap :=
  mkOutputMap defaultOutput "" [].

Definition InputMap_new (name : string) (defaultInput : Input Q) : InputMap Q :=
  mkInputMap defaultInput name [].

Definition InputMap_new_unnamed (defaultInput : Input Q) : InputMap Q :=
  mkInputMap defaultInput "" [].

(** [Node::loadResource]: the weak reference to the pipeline is locked and
    dereferenced without a test; the pipeline loads the resource relative
    to a directory named after the node.  The loader of the pipeline is a
    collaborator outside the sources and is taken as a parameter. *)
Definition Node_loadResource (loadResourceCwd : PipelineImpl → string → string → list Z)
    (w : World Q) (n : Node) (uri : string) : result (list Z) :=
  let cwd := fmt_format "/node/{}/" [pretty (node_id n)] in
  match weak_lock w (node_parent n) with
  | Some p =>
      match w_pipelines w p with
      | Some pl => Ok (loadResourceCwd pl uri cwd)
      | None => Err NullDeref
      end
  | None => Err NullDeref
  end.

(** A call to one of the four setters of the delivery policy. *)
Inductive setter_call :=
  | CallSetBlocking (b : bool)
  | CallSetQueueSize (size : Z)
  | CallPolicy (c : policy_call).

Definition run_setter_call (i : Input Q) (c : setter_call) : Input Q :=
  match c with
  | CallSetBlocking b => Input_setBlocking i b
  | CallSetQueueSize size => Input_setQueueSize i size
  | CallPolicy c => run_policy_call i c
  end.

Definition run_setter_calls (i : Input Q) (cs : list setter_call) : Input Q :=
  fold_left run_setter_call cs i.

(** What the last call of a sequence that concerns a setting has asked
    for, if there is such a call. *)
Definition last_blocking (cs : list setter_call) : option bool :=
  fold_left (λ acc c, match c with CallSetBlocking b => Some b | _ => acc end) cs None.

Definition last_queueSize (cs : list setter_call) : option Z :=
  fold_left (λ acc c, match c with CallSetQueueSize n => Some n | _ => acc end) cs None.

Definition last_waitForMessage (cs : list setter_call) : option bool :=
  fold_left (λ acc c,
               match c with
               | CallPolicy (CallSetWaitForMessage b) => Some b
               | CallPolicy (CallSetReusePreviousMessage b) => Some (negb b)
               | _ => acc
               end) cs None.

(** The state of a port group that its subscript keeps: the keys are
    pairwise distinct, and every element was created before now and
    carries the name of the group as its group and its key as its name. *)
Definition OutputMap_wf (w : World Q) (m : addr) : Prop :=
  NoDup (om_entries (w_outputMaps w m)).*1
  ∧ ∀ k p, (k, p) ∈ om_entries (w_outputMaps w m) →
           p < w_next w
           ∧ out_group (w_outputs w p) = om_name (w_outputMaps w m)
           ∧ out_name (w_outputs w p) = k.

Definition InputMap_wf (w : World Q) (m : addr) : Prop :=
  NoDup (im_entries (w_inputMaps w m)).*1
  ∧ ∀ k p, (k, p) ∈ im_entries (w_inputMaps w m) →
           p < w_next w
           ∧ in_group (w_inputs w p) = im_name (w_inputMaps w m)
           ∧ in_name (w_inputs w p) = k.
End Construction.

(** * Theorems *)

(** ** Formatting *)

Lemma append_empty_r (s : string) : s +:+ "" = s.
Proof.
  induction s as [|c s IH]; [done|].
  change (String c s +:+ "") with (String c (s +:+ "")). by rewrite IH.
Qed.

Lemma fmt_format_single (s : string) : fmt_format "{}" [s] = s.
Proof. cbn. apply append_empty_r. Qed.

Lemma fmt_format_grouped (g n : string) :
  fmt_format grouped_format [g; n] = g +:+ "[" +:+ dquote +:+ n +:+ dquote +:+ "]".
Proof. reflexivity. Qed.



(** ** Wait policy *)

Lemma wait_is_not_reuse {Q : Type} (i : Input Q) :
  Input_getWaitForMessage i = negb (Input_getReusePreviousMessage i).
Proof.
  unfold Input_getWaitForMessage, Input_getReusePreviousMessage.
  by rewrite negb_involutive.
Qed.

(** The two setters write the one field [waitForMessage] and nothing else. *)
Lemma run_policy_calls_frame {Q : Type} (i : Input Q) (cs : list policy_call) :
  in_group (run_policy_calls i cs) = in_group i
  ∧ in_name (run_policy_calls i cs) = in_name i
  ∧ in_queue (run_policy_calls i cs) = in_queue i
  ∧ in_blocking (run_policy_calls i cs) = in_blocking i
  ∧ in_queueSize (run_policy_calls i cs) = in_queueSize i
  ∧ in_defaultWaitForMessage (run_policy_calls i cs) = in_defaultWaitForMessage i.
Proof.
  revert i. induction cs as [|c cs IH]; intros i; [done|].
  change (run_policy_calls i (c :: cs)) with (run_policy_calls (run_policy_call i c) cs).
  destruct (IH (run_policy_call i c)) as (-> & -> & -> & -> & -> & ->).
  by destruct c.
Qed.

(** After a sequence of calls the field holds what the last call wrote. *)
Lemma run_policy_calls_last {Q : Type} (i : Input Q) (cs : list policy_call) (c : policy_call) :
  in_waitForMessage (run_policy_calls i (cs ++ [c]))
  = Some match c with
         | CallSetWaitForMessage b => b
         | CallSetReusePreviousMessage b => negb b
         end.
Proof.
  unfold run_policy_calls. rewrite fold_left_app. cbn. by destruct c.
Qed.

(** C3.  After any finite sequence of calls to [setWaitForMessage] and
    [setReusePreviousMessage], in any order and with any arguments,
    [getWaitForMessage] is the negation of [getReusePreviousMessage]: the
    two getters read the same optional field with the same default. *)
Theorem wait_reuse_negation {Q : Type} (i : Input Q) (cs : list policy_call) :
  Input_getWaitForMessage (run_policy_calls i cs)
  = negb (Input_getReusePreviousMessage (run_policy_calls i cs))
  ∧ Input_getWaitForMessage (run_policy_calls i cs)
    = default (in_defaultWaitForMessage i) (in_waitForMessage (run_policy_calls i cs))
  ∧ Input_getReusePreviousMessage (run_policy_calls i cs)
    = negb (default (in_defaultWaitForMessage i)
                    (in_waitForMessage (run_policy_calls i cs))).
Proof.
  destruct (run_policy_calls_frame i cs) as (_ & _ & _ & _ & _ & Hd).
  unfold Input_getWaitForMessage, Input_getReusePreviousMessage.
  rewrite Hd. by rewrite negb_involutive.
Qed.

Lemma wait_reuse_negation_example :
  Input_getWaitForMessage
    (run_policy_calls (demo_input "" "a" [] 2)
       [CallSetReusePreviousMessage true; CallSetWaitForMessage false;
        CallSetReusePreviousMessage false]) = true.
Proof. reflexivity. Qed.

(** ** Pipelines of an output and an input *)

Lemma weak_lock_Some {Q : Type} (w : World Q) (p q : addr) :
  weak_lock w p = Some q ↔ p = q ∧ is_Some (w_pipelines w p).
Proof.
  unfold weak_lock. destruct (w_pipelines w p) as [pl|]; split.
  - intros [= ->]. eauto.
  - by intros [-> _].
  - done.
  - intros [_ [? ?]]. done.
Qed.

Lemma weak_lock_None {Q : Type} (w : World Q) (p : addr) :
  weak_lock w p = None ↔ w_pipelines w p = None.
Proof. unfold weak_lock. by destruct (w_pipelines w p). Qed.

(** C10.  [isSamePipeline] answers true exactly when the pipeline of the
    output is alive and is the very pipeline of the input; when the
    pipeline of the output has been destroyed it answers false, also when
    the reference of the input locks to null as well. *)
Theorem isSamePipeline_iff {Q : Type} (w : World Q) (o : Output) (i : Input Q) :
  (Output_isSamePipeline w o i = true ↔
     ∃ p, weak_lock w (node_parent (w_nodes w (out_parent o))) = Some p
          ∧ weak_lock w (node_parent (w_nodes w (in_parent i))) = Some p)
  ∧ (Output_isSamePipeline w o i = true ↔
       is_Some (w_pipelines w (node_parent (w_nodes w (out_parent o))))
       ∧ node_parent (w_nodes w (out_parent o)) = node_parent (w_nodes w (in_parent i)))
  ∧ (weak_lock w (node_parent (w_nodes w (out_parent o))) = None
     → Output_isSamePipeline w o i = false).
Proof.
  unfold Output_isSamePipeline.
  set (po := node_parent (w_nodes w (out_parent o))).
  set (pi := node_parent (w_nodes w (in_parent i))).
  split; [|split].
  - destruct (weak_lock w po) as [p|] eqn:Ho.
    + rewrite bool_decide_eq_true. split; [eauto|].
      intros (p' & [= <-] & Hi). by rewrite Hi.
    + split; [done|]. by intros (p & ? & _).
  - destruct (weak_lock w po) as [p|] eqn:Ho.
    + apply weak_lock_Some in Ho as [<- Halive].
      rewrite bool_decide_eq_true. split.
      * intros Hi. symmetry in Hi. apply weak_lock_Some in Hi as [<- _]. eauto.
      * intros [_ <-]. symmetry. by apply weak_lock_Some.
    + apply weak_lock_None in Ho. split; [done|].
      intros [[pl Hpl] _]. congruence.
  - by intros ->.
Qed.

(** Two ports of nodes whose pipelines are both gone are not on the same
    pipeline, although both references lock to null. *)
Lemma isSamePipeline_both_destroyed :
  Output_isSamePipeline
    (mkWorld (w_outputs demo_world) (w_inputs demo_world) (w_outputMaps demo_world)
             (w_inputMaps demo_world) (w_nodes demo_world) (λ _, None) 50)
    demo_out (demo_input "" "a" [] 2) = false
  ∧ Output_isSamePipeline demo_world demo_out (demo_input "" "a" [] 2) = true.
Proof. split; reflexivity. Qed.

(** ** Loops that push to the back of a vector *)

Lemma fold_left_push_filter {A : Type} (P : A → Prop) `{!∀ x, Decision (P x)}
    (f : A → bool) (l acc : list A) :
  (∀ x, f x = true ↔ P x) →
  fold_left (λ acc x, if f x then acc ++ [x] else acc) l acc = acc ++ filter P l.
Proof.
  intros Hf. revert acc. induction l as [|x l IH]; intros acc; cbn [fold_left].
  - by rewrite filter_nil, app_nil_r.
  - rewrite IH. destruct (f x) eqn:Hx.
    + rewrite filter_cons_True by by apply Hf. by rewrite <- app_assoc.
    + rewrite filter_cons_False; [done|]. rewrite <- Hf. congruence.
Qed.

Lemma fold_left_push_map {A B : Type} (g : A → B) (l : list A) (acc : list B) :
  fold_left (λ acc x, acc ++ [g x]) l acc = acc ++ (g <$> l).
Proof.
  revert acc. induction l as [|x l IH]; intros acc; cbn.
  - by rewrite app_nil_r.
  - rewrite IH. by rewrite <- app_assoc.
Qed.

(** ** Connections of an output *)

(** With an expired pipeline the query throws. *)
Lemma getConnections_expired {Q : Type} (w : World Q) (o : Output) :
  w_pipelines w (node_parent (w_nodes w (out_parent o))) = None →
  Output_getConnections w o = Err BadWeakPtr.
Proof. intros H. unfold Output_getConnections, Node_getParentPipeline. by rewrite H. Qed.

(** C6.  [Output::getConnections] returns exactly the connections of the
    full list of the pipeline whose output end, [outputId], [outputGroup]
    and [outputName], is the identifier of the owning node, the group and
    the name of the port, in the order of that list. *)
Theorem getConnections_filter {Q : Type} (w : World Q) (o : Output) (pl : PipelineImpl) :
  w_pipelines w (node_parent (w_nodes w (out_parent o))) = Some pl →
  Output_getConnections w o
  = Ok (filter (λ conn, outputId conn = node_id (w_nodes w (out_parent o))
                        ∧ outputGroup conn = out_group o
                        ∧ outputName conn = out_name o)
               (Pipeline_getConnections pl)).
Proof.
  intros Hpl. unfold Output_getConnections, Node_getParentPipeline.
  rewrite Hpl. cbn. f_equal.
  rewrite (fold_left_push_filter
             (λ conn, outputId conn = node_id (w_nodes w (out_parent o))
                      ∧ outputGroup conn = out_group o
                      ∧ outputName conn = out_name o)); [done|].
  intros conn. rewrite !andb_true_iff, !bool_decide_eq_true. tauto.
Qed.

Lemma getConnections_filter_witness :
  Output_getConnections demo_world demo_out
  = Ok [demo_connection "a" ""; demo_connection "b" ""; demo_connection "c" ""].
Proof.
  rewrite (getConnections_filter demo_world demo_out
             (mkPipelineImpl {[ 1%Z := 10; 2%Z := 11 ]}
                [ demo_connection "a" ""; mkConnection 1 "other" "" 2 "a" "";
                  demo_connection "b" ""; mkConnection 2 "out" "" 2 "c" "";
                  demo_connection "c" "" ])).
  - reflexivity.
  - reflexivity.
Defined.

(** ** Lookup of a port by group and name *)

Lemma scan_outputs_spec {Q : Type} (w : World Q) (refs : list addr) (group name : string) :
  match scan_outputs w refs group name with
  | Some out =>
      ∃ before after, refs = before ++ out :: after
        ∧ out_group (w_outputs w out) = group ∧ out_name (w_outputs w out) = name
        ∧ Forall (λ p, ¬ (out_group (w_outputs w p) = group
                          ∧ out_name (w_outputs w p) = name)) before
  | None =>
      Forall (λ p, ¬ (out_group (w_outputs w p) = group
                      ∧ out_name (w_outputs w p) = name)) refs
  end.
Proof.
  induction refs as [|p refs IH]; cbn; [constructor|].
  destruct (bool_decide (out_group (w_outputs w p) = group)
            && bool_decide (out_name (w_outputs w p) = name)) eqn:Hp.
  - apply andb_true_iff in Hp as [Hg Hn].
    apply bool_decide_eq_true in Hg, Hn.
    exists [], refs. repeat split; [done..|constructor].
  - assert (¬ (out_group (w_outputs w p) = group ∧ out_name (w_outputs w p) = name))
      as Hno.
    { intros [Hg Hn]. apply andb_false_iff in Hp as [Hp|Hp];
        apply bool_decide_eq_false in Hp; done. }
    destruct (scan_outputs w refs group name) as [out|].
    + destruct IH as (before & after & -> & Hg & Hn & Hbefore).
      exists (p :: before), after. repeat split; [done..|by constructor].
    + by constructor.
Qed.

Lemma scan_inputs_spec {Q : Type} (w : World Q) (refs : list addr) (group name : string) :
  match scan_inputs w refs group name with
  | Some input =>
      ∃ before after, refs = before ++ input :: after
        ∧ in_group (w_inputs w input) = group ∧ in_name (w_inputs w input) = name
        ∧ Forall (λ p, ¬ (in_group (w_inputs w p) = group
                          ∧ in_name (w_inputs w p) = name)) before
  | None =>
      Forall (λ p, ¬ (in_group (w_inputs w p) = group
                      ∧ in_name (w_inputs w p) = name)) refs
  end.
Proof.
  induction refs as [|p refs IH]; cbn; [constructor|].
  destruct (bool_decide (in_group (w_inputs w p) = group)
            && bool_decide (in_name (w_inputs w p) = name)) eqn:Hp.
  - apply andb_true_iff in Hp as [Hg Hn].
    apply bool_decide_eq_true in Hg, Hn.
    exists [], refs. repeat split; [done..|constructor].
  - assert (¬ (in_group (w_inputs w p) = group ∧ in_name (w_inputs w p) = name))
      as Hno.
    { intros [Hg Hn]. apply andb_false_iff in Hp as [Hp|Hp];
        apply bool_decide_eq_false in Hp; done. }
    destruct (scan_inputs w refs group name) as [input|].
    + destruct IH as (before & after & -> & Hg & Hn & Hbefore).
      exists (p :: before), after. repeat split; [done..|by constructor].
    + by constructor.
Qed.

(** C8.  [getOutputRef(group, name)] and [getInputRef(group, name)] scan
    the enumeration of the ports of the node in order and return the first
    port whose group and name are the arguments, or null when no port of
    the enumeration has them; the forms with one argument are the forms
    with two arguments at the empty group. *)
Theorem getRef_first_match {Q : Type} (w : World Q) (n : Node) (group name : string) :
  match Node_getOutputRef2 w n group name with
  | Some out =>
      ∃ before after, Node_getOutputRefs w n = before ++ out :: after
        ∧ out_group (w_outputs w out) = group ∧ out_name (w_outputs w out) = name
        ∧ Forall (λ p, ¬ (out_group (w_outputs w p) = group
                          ∧ out_name (w_outputs w p) = name)) before
  | None =>
      Forall (λ p, ¬ (out_group (w_outputs w p) = group
                      ∧ out_name (w_outputs w p) = name)) (Node_getOutputRefs w n)
  end
  ∧ match Node_getInputRef2 w n group name with
    | Some input =>
        ∃ before after, Node_getInputRefs w n = before ++ input :: after
          ∧ in_group (w_inputs w input) = group ∧ in_name (w_inputs w input) = name
          ∧ Forall (λ p, ¬ (in_group (w_inputs w p) = group
                            ∧ in_name (w_inputs w p) = name)) before
    | None =>
        Forall (λ p, ¬ (in_group (w_inputs w p) = group
                        ∧ in_name (w_inputs w p) = name)) (Node_getInputRefs w n)
    end
  ∧ Node_getOutputRef w n name = Node_getOutputRef2 w n "" name
  ∧ Node_getInputRef w n name = Node_getInputRef2 w n "" name.
Proof.
  split; [apply scan_outputs_spec|].
  split; [apply scan_inputs_spec|]. done.
Qed.

(** The consumer of the examples enumerates two inputs [x] of group [in]:
    the lookup answers the first, the one registered directly. *)
Lemma getRef_examples :
  Node_getInputRef2 demo_world (w_nodes demo_world 11) "in" "x" = Some 34
  ∧ Node_getInputRef demo_world (w_nodes demo_world 11) "b" = Some 31
  ∧ Node_getInputRef demo_world (w_nodes demo_world 11) "x" = None
  ∧ Node_getOutputRef demo_world (w_nodes demo_world 10) "out" = Some 20.
Proof. repeat split; reflexivity. Qed.

(** ** Tables *)

Lemma table_count_zero {V : Type} (t : list (string * V)) (key : string) :
  table_count t key = 0 ↔ key ∉ t.*1.
Proof.
  unfold table_count. induction t as [|kv t IH].
  - split; [intros _; apply not_elem_of_nil | done].
  - rewrite filter_cons, fmap_cons, not_elem_of_cons.
    destruct (decide (kv.1 = key)) as [Heq|Hne]; cbn [length].
    + split; [done|]. intros [Hne _]. by destruct Hne.
    + rewrite IH. split; [intros ?; split; [congruence|done] | by intros [_ ?]].
Qed.

Lemma table_assign_fresh {V : Type} (t : list (string * V)) (key : string) (v : V) :
  key ∉ t.*1 → table_assign t key v = t ++ [(key, v)].
Proof.
  induction t as [|kv t IH]; cbn; [done|].
  rewrite not_elem_of_cons. intros [Hne Hnot].
  rewrite bool_decide_eq_false_2 by done. by rewrite IH.
Qed.

(** Registering under a name that is present overwrites the entry where it
    stands: the keys, and so the order, stay. *)
Lemma table_assign_keys {V : Type} (t : list (string * V)) (key : string) (v : V) :
  key ∈ t.*1 → (table_assign t key v).*1 = t.*1.
Proof.
  induction t as [|kv t IH]; cbn.
  - by intros ?%elem_of_nil.
  - intros Hin. destruct (decide (kv.1 = key)) as [Heq|Hne].
    + by rewrite bool_decide_eq_true_2.
    + rewrite bool_decide_eq_false_2 by done. cbn. f_equal. apply IH.
      apply elem_of_cons in Hin as [?|?]; [by destruct Hne|done].
Qed.

Lemma table_assign_at {V : Type} (t : list (string * V)) (key : string) (v : V) :
  table_at (table_assign t key v) key = Ok v.
Proof.
  induction t as [|kv t IH]; cbn.
  - by rewrite bool_decide_eq_true_2.
  - destruct (decide (kv.1 = key)) as [Heq|Hne].
    + rewrite bool_decide_eq_true_2 by done. cbn. by rewrite bool_decide_eq_true_2.
    + rewrite bool_decide_eq_false_2 by done. cbn.
      by rewrite bool_decide_eq_false_2.
Qed.

(** Registrations under names that are new and pairwise distinct enter the
    table one after the other. *)
Lemma table_assign_list {V : Type} (key : V → string) (l : list V) (t : list (string * V)) :
  NoDup (key <$> l) →
  (∀ v, v ∈ l → key v ∉ t.*1) →
  fold_left (λ t v, table_assign t (key v) v) l t = t ++ ((λ v, (key v, v)) <$> l).
Proof.
  revert t. induction l as [|v l IH]; intros t Hnodup Hfresh; cbn.
  - by rewrite app_nil_r.
  - cbn in Hnodup. apply NoDup_cons in Hnodup as [Hv Hnodup].
    rewrite table_assign_fresh by (apply Hfresh; left).
    rewrite IH; [by rewrite <- app_assoc|done|].
    intros v' Hv'. rewrite fmap_app, elem_of_app. intros [Hin|Hin].
    + by apply (Hfresh v'); [right|].
    + cbn in Hin. apply list_elem_of_singleton in Hin.
      apply Hv. rewrite <- Hin. by apply list_elem_of_fmap_2.
Qed.

(** ** Enumeration of the ports of a node *)

Lemma fold_left_push_groups {A : Type} (entries : addr → list (string * A))
    (groups : list (string * addr)) (acc : list A) :
  fold_left (λ tmp kvMap, fold_left (λ tmp kv, tmp ++ [kv.2]) (entries kvMap.2) tmp)
            groups acc
  = acc ++ (groups ≫= λ kvMap, (entries kvMap.2).*2).
Proof.
  revert acc. induction groups as [|g groups IH]; intros acc; cbn [fold_left].
  - cbn. by rewrite app_nil_r.
  - rewrite IH, fold_left_push_map, bind_cons. by rewrite <- app_assoc.
Qed.

Lemma getOutputRefs_eq {Q : Type} (w : World Q) (n : Node) :
  Node_getOutputRefs w n
  = (outputRefs n).*2
    ++ (outputMapRefs n ≫= λ kvMap, (om_entries (w_outputMaps w kvMap.2)).*2).
Proof.
  unfold Node_getOutputRefs.
  rewrite (fold_left_push_groups (λ m, om_entries (w_outputMaps w m))).
  by rewrite fold_left_push_map.
Qed.

Lemma getInputRefs_eq {Q : Type} (w : World Q) (n : Node) :
  Node_getInputRefs w n
  = (inputRefs n).*2
    ++ (inputMapRefs n ≫= λ kvMap, (im_entries (w_inputMaps w kvMap.2)).*2).
Proof.
  unfold Node_getInputRefs.
  rewrite (fold_left_push_groups (λ m, im_entries (w_inputMaps w m))).
  by rewrite fold_left_push_map.
Qed.

(** A port is enumerated when it stands in the table of singular ports or
    in a group that stands in the table of groups. *)
Lemma elem_of_enumeration {A : Type} (singular : list (string * A))
    (groups : list (string * addr)) (entries : addr → list (string * A)) (p : A) :
  p ∈ singular.*2 ++ (groups ≫= λ kvMap, (entries kvMap.2).*2)
  ↔ (∃ k, (k, p) ∈ singular)
    ∨ (∃ g m k, (g, m) ∈ groups ∧ (k, p) ∈ entries m).
Proof.
  rewrite elem_of_app, list_elem_of_fmap, list_elem_of_bind. split.
  - intros [([k p'] & -> & Hin) | ([g m] & Hp & Hin)]; [left; eauto|].
    apply list_elem_of_fmap in Hp as ([k p'] & -> & Hp). right. eauto.
  - intros [(k & Hin) | (g & m & k & Hg & Hin)].
    + left. by exists (k, p).
    + right. exists (g, m). split; [|done].
      apply list_elem_of_fmap. by exists (k, p).
Qed.

Lemma setOutputRefs_list_tables {Q : Type} (w : World Q) (n : Node) (l : list addr) :
  Node_setOutputRefs_list w n l
  = mkNode (node_parent n) (node_id n)
           (fold_left (λ t p, table_assign t (out_name (w_outputs w p)) p) l (outputRefs n))
           (inputRefs n) (outputMapRefs n) (inputMapRefs n).
Proof.
  unfold Node_setOutputRefs_list. revert n.
  induction l as [|p l IH]; intros n; cbn [fold_left]; [by destruct n|].
  by rewrite IH.
Qed.

Lemma setInputRefs_list_tables {Q : Type} (w : World Q) (n : Node) (l : list addr) :
  Node_setInputRefs_list w n l
  = mkNode (node_parent n) (node_id n) (outputRefs n)
           (fold_left (λ t p, table_assign t (in_name (w_inputs w p)) p) l (inputRefs n))
           (outputMapRefs n) (inputMapRefs n).
Proof.
  unfold Node_setInputRefs_list. revert n.
  induction l as [|p l IH]; intros n; cbn [fold_left]; [by destruct n|].
  by rewrite IH.
Qed.

Lemma setOutputMapRefs_list_tables {Q : Type} (w : World Q) (n : Node) (l : list addr) :
  Node_setOutputMapRefs_list w n l
  = mkNode (node_parent n) (node_id n) (outputRefs n) (inputRefs n)
           (fold_left (λ t m, table_assign t (om_name (w_outputMaps w m)) m) l
                      (outputMapRefs n))
           (inputMapRefs n).
Proof.
  unfold Node_setOutputMapRefs_list. revert n.
  induction l as [|p l IH]; intros n; cbn [fold_left]; [by destruct n|].
  by rewrite IH.
Qed.

Lemma setInputMapRefs_list_tables {Q : Type} (w : World Q) (n : Node) (l : list addr) :
  Node_setInputMapRefs_list w n l
  = mkNode (node_parent n) (node_id n) (outputRefs n) (inputRefs n) (outputMapRefs n)
           (fold_left (λ t m, table_assign t (im_name (w_inputMaps w m)) m) l
                      (inputMapRefs n)).
Proof.
  unfold Node_setInputMapRefs_list. revert n.
  induction l as [|p l IH]; intros n; cbn [fold_left]; [by destruct n|].
  by rewrite IH.
Qed.

Lemma register_tables {Q : Type} (w : World Q) (n : Node)
    (outs ins outMaps inMaps : list addr) :
  Node_register w n outs ins outMaps inMaps
  = mkNode (node_parent n) (node_id n)
      (fold_left (λ t p, table_assign t (out_name (w_outputs w p)) p) outs (outputRefs n))
      (fold_left (λ t p, table_assign t (in_name (w_inputs w p)) p) ins (inputRefs n))
      (fold_left (λ t m, table_assign t (om_name (w_outputMaps w m)) m) outMaps
                 (outputMapRefs n))
      (fold_left (λ t m, table_assign t (im_name (w_inputMaps w m)) m) inMaps
                 (inputMapRefs n)).
Proof.
  unfold Node_register.
  by rewrite setInputMapRefs_list_tables, setOutputMapRefs_list_tables,
    setInputRefs_list_tables, setOutputRefs_list_tables.
Qed.

Lemma fmap_snd_keyed {V : Type} (key : V → string) (l : list V) :
  ((λ v, (key v, v)) <$> l).*2 = l.
Proof. induction l as [|v l IH]; cbn; [done|]. by rewrite IH. Qed.

Lemma bind_keyed {V B : Type} (key : V → string) (f : V → list B) (l : list V) :
  (((λ v, (key v, v)) <$> l) ≫= λ kv, f kv.2) = l ≫= f.
Proof. induction l as [|v l IH]; cbn; [done|]. by rewrite IH. Qed.

Lemma bind_entries_ext {A : Type} (entries entries' : addr → list (string * A))
    (groups : list (string * addr)) :
  (∀ m, entries' m = entries m) →
  (groups ≫= λ kvMap, (entries' kvMap.2).*2) = (groups ≫= λ kvMap, (entries kvMap.2).*2).
Proof.
  intros Hext. induction groups as [|g groups IH]; [done|].
  by rewrite !bind_cons, IH, Hext.
Qed.

(** C5.  [getOutputRefs] and [getInputRefs] return every port the node
    owns and no other: the ports in the table of singular ports, then the
    ports of the groups in the table of groups, group after group, each
    with its ports in the order of its entries.  For a node whose ports
    and groups were registered under distinct names this is the order of
    registration.  The enumeration reads the tables and nothing else, so
    two calls with no change to the tables in between agree. *)
Theorem getRefs_enumeration {Q : Type} (w : World Q) (n : Node)
    (outs ins outMaps inMaps : list addr) :
  Node_getOutputRefs w n
  = (outputRefs n).*2
    ++ (outputMapRefs n ≫= λ kvMap, (om_entries (w_outputMaps w kvMap.2)).*2)
  ∧ Node_getInputRefs w n
    = (inputRefs n).*2
      ++ (inputMapRefs n ≫= λ kvMap, (im_entries (w_inputMaps w kvMap.2)).*2)
  ∧ (∀ p, p ∈ Node_getOutputRefs w n
          ↔ (∃ k, (k, p) ∈ outputRefs n)
            ∨ (∃ g m k, (g, m) ∈ outputMapRefs n
                        ∧ (k, p) ∈ om_entries (w_outputMaps w m)))
  ∧ (∀ p, p ∈ Node_getInputRefs w n
          ↔ (∃ k, (k, p) ∈ inputRefs n)
            ∨ (∃ g m k, (g, m) ∈ inputMapRefs n
                        ∧ (k, p) ∈ im_entries (w_inputMaps w m)))
  ∧ (NoDup ((λ p, out_name (w_outputs w p)) <$> outs) →
     NoDup ((λ m, om_name (w_outputMaps w m)) <$> outMaps) →
     Node_getOutputRefs w
       (Node_register w (mkNode (node_parent n) (node_id n) [] [] [] [])
                      outs ins outMaps inMaps)
     = outs ++ (outMaps ≫= λ m, (om_entries (w_outputMaps w m)).*2))
  ∧ (NoDup ((λ p, in_name (w_inputs w p)) <$> ins) →
     NoDup ((λ m, im_name (w_inputMaps w m)) <$> inMaps) →
     Node_getInputRefs w
       (Node_register w (mkNode (node_parent n) (node_id n) [] [] [] [])
                      outs ins outMaps inMaps)
     = ins ++ (inMaps ≫= λ m, (im_entries (w_inputMaps w m)).*2))
  ∧ (∀ w' : World Q,
       (∀ m, om_entries (w_outputMaps w' m) = om_entries (w_outputMaps w m)) →
       Node_getOutputRefs w' n = Node_getOutputRefs w n)
  ∧ (∀ w' : World Q,
       (∀ m, im_entries (w_inputMaps w' m) = im_entries (w_inputMaps w m)) →
       Node_getInputRefs w' n = Node_getInputRefs w n).
Proof.
  split; [apply getOutputRefs_eq|].
  split; [apply getInputRefs_eq|].
  split; [intros p; rewrite getOutputRefs_eq;
          apply (elem_of_enumeration _ _ (λ m, om_entries (w_outputMaps w m)))|].
  split; [intros p; rewrite getInputRefs_eq;
          apply (elem_of_enumeration _ _ (λ m, im_entries (w_inputMaps w m)))|].
  split; [|split; [|split]].
  - intros Houts HoutMaps.
    rewrite getOutputRefs_eq, register_tables. cbn [outputRefs outputMapRefs].
    rewrite (table_assign_list (λ p, out_name (w_outputs w p))), app_nil_l;
      [|done|intros ? _; apply not_elem_of_nil].
    rewrite (table_assign_list (λ m, om_name (w_outputMaps w m))), app_nil_l;
      [|done|intros ? _; apply not_elem_of_nil].
    rewrite fmap_snd_keyed.
    by rewrite (bind_keyed _ (λ m, (om_entries (w_outputMaps w m)).*2)).
  - intros Hins HinMaps.
    rewrite getInputRefs_eq, register_tables. cbn [inputRefs inputMapRefs].
    rewrite (table_assign_list (λ p, in_name (w_inputs w p))), app_nil_l;
      [|done|intros ? _; apply not_elem_of_nil].
    rewrite (table_assign_list (λ m, im_name (w_inputMaps w m))), app_nil_l;
      [|done|intros ? _; apply not_elem_of_nil].
    rewrite fmap_snd_keyed.
    by rewrite (bind_keyed _ (λ m, (im_entries (w_inputMaps w m)).*2)).
  - intros w' Hext. rewrite !getOutputRefs_eq. f_equal.
    by apply (bind_entries_ext (λ m, om_entries (w_outputMaps w m))
                               (λ m, om_entries (w_outputMaps w' m))).
  - intros w' Hext. rewrite !getInputRefs_eq. f_equal.
    by apply (bind_entries_ext (λ m, im_entries (w_inputMaps w m))
                               (λ m, im_entries (w_inputMaps w' m))).
Qed.

Lemma getRefs_enumeration_witness :
  Node_getInputRefs demo_world
    (Node_register demo_world (mkNode 0 2 [] [] [] []) [20] [30; 31; 32] [] [40])
  = [30; 31; 32; 33]
  ∧ Node_getInputRefs demo_world (w_nodes demo_world 11) = [30; 31; 32; 34; 33].
Proof.
  split.
  - pose proof (getRefs_enumeration demo_world (mkNode 0 2 [] [] [] [])
                  [20] [30; 31; 32] [] [40]) as (_ & _ & _ & _ & _ & H & _).
    etrans; [apply H|reflexivity].
    + apply (bool_decide_unpack _). vm_compute. exact I.
    + apply (bool_decide_unpack _). vm_compute. exact I.
  - pose proof (getRefs_enumeration demo_world (w_nodes demo_world 11) [] [] [] [])
      as (_ & H & _).
    rewrite H. reflexivity.
Defined.

(** ** Subscripts of port groups *)

Lemma table_at_present {V : Type} (t : list (string * V)) (key : string) :
  key ∈ t.*1 → ∃ v, table_at t key = Ok v ∧ (key, v) ∈ t.
Proof.
  induction t as [|[k v] t IH]; cbn.
  - by intros ?%elem_of_nil.
  - intros Hin. destruct (decide (k = key)) as [->|Hne].
    + rewrite bool_decide_eq_true_2 by done. exists v. split; [done|left].
    + rewrite bool_decide_eq_false_2 by done.
      apply elem_of_cons in Hin as [?|Hin]; [congruence|].
      destruct (IH Hin) as (v' & Hat & Hv'). exists v'. split; [done|by right].
Qed.

Lemma table_at_app_fresh {V : Type} (t : list (string * V)) (key : string) (v : V) :
  key ∉ t.*1 → table_at (t ++ [(key, v)]) key = Ok v.
Proof.
  induction t as [|[k v'] t IH]; cbn.
  - intros _. by rewrite bool_decide_eq_true_2.
  - rewrite not_elem_of_cons. intros [Hne Hnot].
    rewrite bool_decide_eq_false_2 by done. by apply IH.
Qed.

Lemma table_insert_fresh {V : Type} (t : list (string * V)) (key : string) (v : V) :
  key ∉ t.*1 → table_insert t key v = t ++ [(key, v)].
Proof.
  intros Hnot. unfold table_insert.
  by rewrite bool_decide_eq_true_2 by by apply table_count_zero.
Qed.

Lemma table_count_nonzero {V : Type} (t : list (string * V)) (key : string) :
  key ∈ t.*1 → table_count t key ≠ 0.
Proof. intros Hin. rewrite table_count_zero. by intros Hnot. Qed.

Lemma table_insert_present {V : Type} (t : list (string * V)) (key : string) (v : V) :
  key ∈ t.*1 → table_insert t key v = t.
Proof.
  intros Hin. unfold table_insert.
  by rewrite bool_decide_eq_false_2 by by apply table_count_nonzero.
Qed.

Section MapIndex.
Context {Q : Type}.
Implicit Types (w : World Q) (m : addr) (key : string).

Lemma OutputMap_index_absent w m key :
  key ∉ (om_entries (w_outputMaps w m)).*1 →
  ∃ w', OutputMap_index w m key = Ok (w', w_next w)
    ∧ w_outputs w' (w_next w)
      = mkOutput (out_parent (om_defaultOutput (w_outputMaps w m)))
                 (om_name (w_outputMaps w m)) key
    ∧ w_outputMaps w' m
      = mkOutputMap (om_defaultOutput (w_outputMaps w m)) (om_name (w_outputMaps w m))
                    (om_entries (w_outputMaps w m) ++ [(key, w_next w)])
    ∧ (∀ a, a ≠ w_next w → w_outputs w' a = w_outputs w a)
    ∧ (∀ m', m' ≠ m → w_outputMaps w' m' = w_outputMaps w m')
    ∧ w_inputs w' = w_inputs w ∧ w_inputMaps w' = w_inputMaps w.
Proof.
  intros Hnot. unfold OutputMap_index, OutputMap_insert.
  rewrite bool_decide_eq_true_2 by by apply table_count_zero.
  eexists. cbn [w_outputMaps w_outputs w_inputs w_inputMaps].
  rewrite !fn_lookup_insert. cbn [om_entries om_defaultOutput om_name out_parent
                                   out_group out_name].
  rewrite table_insert_fresh, table_at_app_fresh by done.
  split; [reflexivity|]. cbn [w_outputMaps w_outputs w_inputs w_inputMaps].
  rewrite !fn_lookup_insert.
  repeat split; try done; intros ? ?; by rewrite fn_lookup_insert_ne.
Qed.

Lemma OutputMap_index_present w m key :
  key ∈ (om_entries (w_outputMaps w m)).*1 →
  ∃ ref, OutputMap_index w m key = Ok (w, ref)
    ∧ table_at (om_entries (w_outputMaps w m)) key = Ok ref
    ∧ (key, ref) ∈ om_entries (w_outputMaps w m).
Proof.
  intros Hin. unfold OutputMap_index.
  rewrite bool_decide_eq_false_2 by by apply table_count_nonzero.
  destruct (table_at_present _ _ Hin) as (ref & Hat & Href).
  exists ref. by rewrite Hat.
Qed.

Lemma InputMap_index_absent w m key :
  key ∉ (im_entries (w_inputMaps w m)).*1 →
  ∃ w', InputMap_index w m key = Ok (w', w_next w)
    ∧ w_inputs w' (w_next w)
      = set_in_group_name (im_defaultInput (w_inputMaps w m))
                          (im_name (w_inputMaps w m)) key
    ∧ w_inputMaps w' m
      = mkInputMap (im_defaultInput (w_inputMaps w m)) (im_name (w_inputMaps w m))
                   (im_entries (w_inputMaps w m) ++ [(key, w_next w)])
    ∧ (∀ a, a ≠ w_next w → w_inputs w' a = w_inputs w a)
    ∧ (∀ m', m' ≠ m → w_inputMaps w' m' = w_inputMaps w m')
    ∧ w_outputs w' = w_outputs w ∧ w_outputMaps w' = w_outputMaps w.
Proof.
  intros Hnot. unfold InputMap_index, InputMap_insert.
  rewrite bool_decide_eq_true_2 by by apply table_count_zero.
  eexists. cbn [w_outputMaps w_outputs w_inputs w_inputMaps].
  rewrite !fn_lookup_insert. cbn [im_entries im_defaultInput im_name].
  rewrite table_insert_fresh, table_at_app_fresh by done.
  split; [reflexivity|]. cbn [w_outputMaps w_outputs w_inputs w_inputMaps].
  rewrite !fn_lookup_insert.
  repeat split; try done; intros ? ?; by rewrite fn_lookup_insert_ne.
Qed.

Lemma InputMap_index_present w m key :
  key ∈ (im_entries (w_inputMaps w m)).*1 →
  ∃ ref, InputMap_index w m key = Ok (w, ref)
    ∧ table_at (im_entries (w_inputMaps w m)) key = Ok ref
    ∧ (key, ref) ∈ im_entries (w_inputMaps w m).
Proof.
  intros Hin. unfold InputMap_index.
  rewrite bool_decide_eq_false_2 by by apply table_count_nonzero.
  destruct (table_at_present _ _ Hin) as (ref & Hat & Href).
  exists ref. by rewrite Hat.
Qed.
End MapIndex.








(** The second testable property of the wiring layer, run on the group
    [in] of the examples: two lookups of [x] give the same port, and the
    queue size set after the first is read after the second. *)
Lemma map_index_queueSize_example :
  match InputMap_index demo_world 40 "x" with
  | Ok (w1, first) =>
      match InputMap_index (Input_setQueueSize_at w1 first 7) 40 "x" with
      | Ok (w2, second) =>
          first = second ∧ Input_getQueueSize (w_inputs w2 second) = 7%Z
      | Err _ => False
      end
  | Err _ => False
  end.
Proof. vm_compute. done. Qed.

(** ** Message fan-out *)

Section FanOutFacts.
Context {Q Msg : Type} `{!MessageQueue Q Msg}.
Implicit Types (w : World Q) (msg : Msg) (conn : Connection) (o : Output).

Lemma only_queues_differ_refl w : only_queues_differ w w.
Proof. repeat split; try done. intros a. by destruct (w_inputs w a). Qed.

Lemma only_queues_differ_trans w1 w2 w3 :
  only_queues_differ w1 w2 → only_queues_differ w2 w3 → only_queues_differ w1 w3.
Proof.
  intros (A1 & A2 & A3 & A4 & A5 & A6 & H12) (B1 & B2 & B3 & B4 & B5 & B6 & H23).
  repeat split; try congruence. intros a. rewrite <- (H12 a), <- (H23 a).
  by destruct (w_inputs w3 a).
Qed.

Lemma only_queues_differ_names w w' a :
  only_queues_differ w w' →
  in_group (w_inputs w' a) = in_group (w_inputs w a)
  ∧ in_name (w_inputs w' a) = in_name (w_inputs w a).
Proof.
  intros (_ & _ & _ & _ & _ & _ & Hin). rewrite <- (Hin a).
  by destruct (w_inputs w' a).
Qed.

Lemma queue_send_at_frame w input msg : only_queues_differ w (queue_send_at w input msg).
Proof.
  repeat split; try done. intros a. cbn.
  destruct (decide (input = a)) as [->|Hne].
  - rewrite fn_lookup_insert. by destruct (w_inputs w a).
  - rewrite fn_lookup_insert_ne by done. by destruct (w_inputs w a).
Qed.

Lemma queue_trySend_at_frame w input msg :
  only_queues_differ w (queue_trySend_at w input msg).1.
Proof.
  repeat split; try done. intros a. cbn.
  destruct (decide (input = a)) as [->|Hne].
  - rewrite fn_lookup_insert. by destruct (w_inputs w a).
  - rewrite fn_lookup_insert_ne by done. by destruct (w_inputs w a).
Qed.

Lemma deliver_all_frame w targets msg : only_queues_differ w (deliver_all w targets msg).
Proof.
  unfold deliver_all. revert w.
  induction targets as [|p targets IH]; intros w; cbn [fold_left].
  - apply only_queues_differ_refl.
  - eapply only_queues_differ_trans; [apply queue_send_at_frame|apply IH].
Qed.

Lemma attempt_all_frame w targets msg :
  only_queues_differ w (attempt_all w targets msg).1.
Proof.
  revert w. induction targets as [|p targets IH]; intros w; cbn.
  - apply only_queues_differ_refl.
  - eapply only_queues_differ_trans; [apply queue_trySend_at_frame|apply IH].
Qed.

(** What the wiring reads is the same in two worlds that differ in the
    queues only. *)
Lemma matches_frame w w' conn a :
  only_queues_differ w w' → matches w' conn a ↔ matches w conn a.
Proof.
  intros Hw. unfold matches.
  by destruct (only_queues_differ_names w w' a Hw) as [-> ->].
Qed.

Lemma corresponds_matches w conn a : corresponds w conn a = true ↔ matches w conn a.
Proof.
  unfold corresponds, matches. by rewrite andb_true_iff, !bool_decide_eq_true.
Qed.

Lemma getInputRefs_frame w w' n :
  only_queues_differ w w' → Node_getInputRefs w' n = Node_getInputRefs w n.
Proof. intros (_ & _ & Him & _). unfold Node_getInputRefs. by rewrite Him. Qed.

Lemma connection_targets_frame w w' pl conn :
  only_queues_differ w w' → connection_targets w' pl conn = connection_targets w pl conn.
Proof.
  intros Hw. unfold connection_targets.
  destruct (Pipeline_getNode pl (inputId conn)) as [node|]; [|done].
  rewrite (getInputRefs_frame w w') by done.
  pose proof Hw as (_ & _ & _ & Hnodes & _). rewrite Hnodes.
  apply list_filter_iff. intros a. by apply matches_frame.
Qed.

Lemma fanout_targets_frame w w' pl conns :
  only_queues_differ w w' → fanout_targets w' pl conns = fanout_targets w pl conns.
Proof.
  intros Hw. unfold fanout_targets. induction conns as [|conn conns IH]; [done|].
  by rewrite !bind_cons, IH, (connection_targets_frame w w').
Qed.

End FanOutFacts.

Section FanOutLoops.
Context {Q Msg : Type} `{!MessageQueue Q Msg}.
Implicit Types (w : World Q) (msg : Msg) (conn : Connection) (o : Output).

(** *** The inner loops *)

Lemma send_inputs_eq w conn inputs msg :
  send_inputs w conn inputs msg = deliver_all w (filter (matches w conn) inputs) msg.
Proof.
  unfold send_inputs, deliver_all. revert w.
  induction inputs as [|p inputs IH]; intros w; [done|].
  cbn [fold_left]. rewrite filter_cons.
  destruct (corresponds w conn p) eqn:Hc.
  - apply corresponds_matches in Hc. rewrite decide_True by done. cbn [fold_left].
    rewrite IH. f_equal. apply list_filter_iff. intros a.
    apply matches_frame, queue_send_at_frame.
  - rewrite decide_False; [apply IH|].
    intros Hm. apply corresponds_matches in Hm. congruence.
Qed.

Lemma trySend_inputs_eq w conn inputs msg success :
  trySend_inputs w conn inputs msg success
  = ((attempt_all w (filter (matches w conn) inputs) msg).1,
     success && forallb id (attempt_all w (filter (matches w conn) inputs) msg).2).
Proof.
  unfold trySend_inputs. revert w success.
  induction inputs as [|p inputs IH]; intros w success.
  - cbn. by rewrite andb_true_r.
  - cbn [fold_left fst snd]. rewrite filter_cons.
    destruct (corresponds w conn p) eqn:Hc.
    + apply corresponds_matches in Hc. rewrite decide_True by done.
      rewrite IH. cbn [attempt_all fst snd forallb id].
      rewrite (list_filter_iff (matches (queue_trySend_at w p msg).1 conn)
                               (matches w conn))
        by (intros a; apply matches_frame, queue_trySend_at_frame).
      by rewrite andb_assoc.
    + rewrite decide_False; [apply IH|].
      intros Hm. apply corresponds_matches in Hm. congruence.
Qed.

Lemma occurrences_cons a p l :
  occurrences a (p :: l) = if decide (p = a) then S (occurrences a l) else occurrences a l.
Proof. unfold occurrences. rewrite filter_cons. by destruct (decide (p = a)). Qed.

(** Each input gets one [send] for every time it stands in the list. *)
Lemma deliver_all_queue w targets msg a :
  in_queue (w_inputs (deliver_all w targets msg) a)
  = Nat.iter (occurrences a targets) (λ q, queue_send q msg) (in_queue (w_inputs w a)).
Proof.
  unfold deliver_all. revert w.
  induction targets as [|p targets IH]; intros w; [done|].
  cbn [fold_left]. rewrite IH, occurrences_cons.
  destruct (decide (p = a)) as [->|Hne].
  - rewrite Nat.iter_succ_r. f_equal. cbn. by rewrite fn_lookup_insert.
  - f_equal. cbn. by rewrite fn_lookup_insert_ne.
Qed.

Lemma attempt_all_queue w targets msg a :
  in_queue (w_inputs (attempt_all w targets msg).1 a)
  = Nat.iter (occurrences a targets) (λ q, (queue_trySend q msg).1)
             (in_queue (w_inputs w a)).
Proof.
  revert w. induction targets as [|p targets IH]; intros w; [done|].
  cbn [attempt_all fst]. rewrite IH, occurrences_cons.
  destruct (decide (p = a)) as [->|Hne].
  - rewrite Nat.iter_succ_r. f_equal. cbn. by rewrite fn_lookup_insert.
  - f_equal. cbn. by rewrite fn_lookup_insert_ne.
Qed.

(** One flag for each input of the list: no attempt is left out, whatever
    the flags of the attempts before it. *)
Lemma attempt_all_length w targets msg :
  length (attempt_all w targets msg).2 = length targets.
Proof.
  revert w. induction targets as [|p targets IH]; intros w; [done|].
  cbn. by rewrite IH.
Qed.

Lemma attempt_all_app w targets1 targets2 msg :
  attempt_all w (targets1 ++ targets2) msg
  = ((attempt_all (attempt_all w targets1 msg).1 targets2 msg).1,
     (attempt_all w targets1 msg).2
     ++ (attempt_all (attempt_all w targets1 msg).1 targets2 msg).2).
Proof.
  revert w. induction targets1 as [|p targets1 IH]; intros w.
  - cbn. by destruct (attempt_all w targets2 msg).
  - cbn. by rewrite IH.
Qed.

Lemma deliver_all_app w targets1 targets2 msg :
  deliver_all w (targets1 ++ targets2) msg
  = deliver_all (deliver_all w targets1 msg) targets2 msg.
Proof. unfold deliver_all. by rewrite fold_left_app. Qed.

(** *** The outer loops *)

Lemma connection_targets_resolved w pl conn node :
  Pipeline_getNode pl (inputId conn) = Some node →
  connection_targets w pl conn
  = filter (matches w conn) (Node_getInputRefs w (w_nodes w node)).
Proof. intros Hnode. unfold connection_targets. by rewrite Hnode. Qed.

Lemma alive_frame w w' o pl :
  only_queues_differ w w' →
  w_pipelines w (node_parent (w_nodes w (out_parent o))) = Some pl →
  w_pipelines w' (node_parent (w_nodes w' (out_parent o))) = Some pl.
Proof. intros (_ & _ & _ & -> & -> & _). done. Qed.

Lemma fanout_targets_cons w pl conn conns :
  fanout_targets w pl (conn :: conns)
  = connection_targets w pl conn ++ fanout_targets w pl conns.
Proof. unfold fanout_targets. by rewrite bind_cons. Qed.

(** One turn of the outer loops, for a connection whose node is found and
    for one whose node is not. *)
Lemma send_conns_cons w o pl conn conns msg node :
  w_pipelines w (node_parent (w_nodes w (out_parent o))) = Some pl →
  Pipeline_getNode pl (inputId conn) = Some node →
  send_conns w o (conn :: conns) msg
  = send_conns (send_inputs w conn (Node_getInputRefs w (w_nodes w node)) msg)
               o conns msg.
Proof.
  intros Hpl Hnode. cbn. unfold Node_getParentPipeline. rewrite Hpl. cbn.
  by rewrite Hnode.
Qed.

Lemma send_conns_cons_null w o pl conn conns msg :
  w_pipelines w (node_parent (w_nodes w (out_parent o))) = Some pl →
  Pipeline_getNode pl (inputId conn) = None →
  send_conns w o (conn :: conns) msg = Err NullDeref.
Proof.
  intros Hpl Hnode. cbn. unfold Node_getParentPipeline. rewrite Hpl. cbn.
  by rewrite Hnode.
Qed.

Lemma trySend_conns_cons w o pl conn conns msg success node :
  w_pipelines w (node_parent (w_nodes w (out_parent o))) = Some pl →
  Pipeline_getNode pl (inputId conn) = Some node →
  trySend_conns w o (conn :: conns) msg success
  = trySend_conns
      (trySend_inputs w conn (Node_getInputRefs w (w_nodes w node)) msg success).1
      o conns msg
      (trySend_inputs w conn (Node_getInputRefs w (w_nodes w node)) msg success).2.
Proof.
  intros Hpl Hnode. cbn. unfold Node_getParentPipeline. rewrite Hpl. cbn.
  by rewrite Hnode.
Qed.

Lemma trySend_conns_cons_null w o pl conn conns msg success :
  w_pipelines w (node_parent (w_nodes w (out_parent o))) = Some pl →
  Pipeline_getNode pl (inputId conn) = None →
  trySend_conns w o (conn :: conns) msg success = Err NullDeref.
Proof.
  intros Hpl Hnode. cbn. unfold Node_getParentPipeline. rewrite Hpl. cbn.
  by rewrite Hnode.
Qed.

Lemma send_conns_resolved w o pl conns msg :
  w_pipelines w (node_parent (w_nodes w (out_parent o))) = Some pl →
  resolvable pl conns →
  send_conns w o conns msg = Ok (deliver_all w (fanout_targets w pl conns) msg).
Proof.
  revert w. induction conns as [|conn conns IH]; intros w Hpl Hres; [done|].
  apply Forall_cons in Hres as [[node Hnode] Hres].
  rewrite (send_conns_cons w o pl conn conns msg node) by done.
  rewrite send_inputs_eq, <- (connection_targets_resolved w pl conn node Hnode).
  rewrite fanout_targets_cons, deliver_all_app.
  set (w1 := deliver_all w (connection_targets w pl conn) msg).
  assert (only_queues_differ w w1) as Hw1 by apply deliver_all_frame.
  rewrite (IH w1) by eauto using alive_frame.
  by rewrite (fanout_targets_frame w w1).
Qed.

Lemma send_conns_unresolved w o pl conns msg :
  w_pipelines w (node_parent (w_nodes w (out_parent o))) = Some pl →
  Exists (λ conn, Pipeline_getNode pl (inputId conn) = None) conns →
  send_conns w o conns msg = Err NullDeref.
Proof.
  revert w. induction conns as [|conn conns IH]; intros w Hpl Hex.
  - by apply Exists_nil in Hex.
  - destruct (Pipeline_getNode pl (inputId conn)) as [node|] eqn:Hnode.
    + rewrite (send_conns_cons w o pl conn conns msg node) by done.
      apply Exists_cons in Hex as [Hex|Hex]; [congruence|].
      apply IH; [|done]. rewrite send_inputs_eq.
      eapply alive_frame; [apply deliver_all_frame|done].
    + by apply (send_conns_cons_null w o pl).
Qed.

Lemma trySend_conns_resolved w o pl conns msg success :
  w_pipelines w (node_parent (w_nodes w (out_parent o))) = Some pl →
  resolvable pl conns →
  trySend_conns w o conns msg success
  = Ok ((attempt_all w (fanout_targets w pl conns) msg).1,
        success && forallb id (attempt_all w (fanout_targets w pl conns) msg).2).
Proof.
  revert w success.
  induction conns as [|conn conns IH]; intros w success Hpl Hres.
  - cbn. by rewrite andb_true_r.
  - apply Forall_cons in Hres as [[node Hnode] Hres].
    rewrite (trySend_conns_cons w o pl conn conns msg success node) by done.
    rewrite trySend_inputs_eq, <- (connection_targets_resolved w pl conn node Hnode).
    rewrite fanout_targets_cons, attempt_all_app. cbn [fst snd].
    set (w1 := (attempt_all w (connection_targets w pl conn) msg).1).
    assert (only_queues_differ w w1) as Hw1 by apply attempt_all_frame.
    rewrite (IH w1) by eauto using alive_frame.
    rewrite (fanout_targets_frame w w1) by done.
    by rewrite forallb_app, andb_assoc.
Qed.

Lemma trySend_conns_unresolved w o pl conns msg success :
  w_pipelines w (node_parent (w_nodes w (out_parent o))) = Some pl →
  Exists (λ conn, Pipeline_getNode pl (inputId conn) = None) conns →
  trySend_conns w o conns msg success = Err NullDeref.
Proof.
  revert w success. induction conns as [|conn conns IH]; intros w success Hpl Hex.
  - by apply Exists_nil in Hex.
  - destruct (Pipeline_getNode pl (inputId conn)) as [node|] eqn:Hnode.
    + rewrite (trySend_conns_cons w o pl conn conns msg success node) by done.
      apply Exists_cons in Hex as [Hex|Hex]; [congruence|].
      apply IH; [|done]. rewrite trySend_inputs_eq. cbn [fst].
      eapply alive_frame; [apply attempt_all_frame|done].
    + by apply (trySend_conns_cons_null w o pl).
Qed.
End FanOutLoops.

Lemma occurrences_app (a : addr) (l1 l2 : list addr) :
  occurrences a (l1 ++ l2) = occurrences a l1 + occurrences a l2.
Proof. unfold occurrences. by rewrite filter_app, length_app. Qed.

Lemma occurrences_fanout_le {Q : Type} (w : World Q) (pl : PipelineImpl)
    (conns : list Connection) (conn : Connection) (a : addr) :
  conn ∈ conns →
  occurrences a (connection_targets w pl conn) ≤ occurrences a (fanout_targets w pl conns).
Proof.
  induction conns as [|c conns IH]; [by intros ?%elem_of_nil|].
  rewrite fanout_targets_cons, occurrences_app.
  intros [->|Hin]%elem_of_cons; [lia|]. specialize (IH Hin). lia.
Qed.

(** C9.  One turn of the fan-out of [send] and of [trySend], for a
    connection whose node is found: the inner loop applies the queue
    operation to every input of the enumeration of that node whose group
    and name are those of the input end of the connection, once for each
    time the input is enumerated; the search goes through the whole
    enumeration, so several inputs with that group and name all take the
    message in the same turn, and the queues of the other inputs are left
    as they were.  The turn returns: a fan-out over this connection alone
    ends in the world the inner loop leaves, a fan-out over more
    connections goes on from it, and in a whole call of [send] or
    [trySend] on an output that has the connection every input gets the
    queue operation at least as often as the connection leads to it. *)
Theorem fanout_step_all_matches {Q Msg : Type} `{!MessageQueue Q Msg}
    (w : World Q) (o : Output) (pl : PipelineImpl) (conn : Connection)
    (conns : list Connection) (msg : Msg) (success : bool) (node : addr) :
  w_pipelines w (node_parent (w_nodes w (out_parent o))) = Some pl →
  Pipeline_getNode pl (inputId conn) = Some node →
  (∀ a, a ∈ connection_targets w pl conn
        ↔ a ∈ Node_getInputRefs w (w_nodes w node)
          ∧ in_group (w_inputs w a) = inputGroup conn
          ∧ in_name (w_inputs w a) = inputName conn)
  ∧ (∃ w1,
       send_inputs w conn (Node_getInputRefs w (w_nodes w node)) msg = w1
       ∧ send_conns w o [conn] msg = Ok w1
       ∧ send_conns w o (conn :: conns) msg = send_conns w1 o conns msg
       ∧ only_queues_differ w w1
       ∧ ∀ a, in_queue (w_inputs w1 a)
              = Nat.iter (occurrences a (connection_targets w pl conn))
                         (λ q, queue_send q msg) (in_queue (w_inputs w a)))
  ∧ (∃ w1 flags,
       trySend_inputs w conn (Node_getInputRefs w (w_nodes w node)) msg success
       = (w1, success && forallb id flags)
       ∧ trySend_conns w o [conn] msg success = Ok (w1, success && forallb id flags)
       ∧ trySend_conns w o (conn :: conns) msg success
         = trySend_conns w1 o conns msg (success && forallb id flags)
       ∧ attempt_all w (connection_targets w pl conn) msg = (w1, flags)
       ∧ length flags = length (connection_targets w pl conn)
       ∧ only_queues_differ w w1
       ∧ ∀ a, in_queue (w_inputs w1 a)
              = Nat.iter (occurrences a (connection_targets w pl conn))
                         (λ q, (queue_trySend q msg).1) (in_queue (w_inputs w a)))
  ∧ (∀ all, Output_getConnections w o = Ok all → resolvable pl all → conn ∈ all →
       ∃ w' w'' flags,
         Output_send w o msg = Ok w'
         ∧ Output_trySend w o msg = Ok (w'', forallb id flags)
         ∧ length flags = length (fanout_targets w pl all)
         ∧ ∀ a, occurrences a (connection_targets w pl conn)
                ≤ occurrences a (fanout_targets w pl all)
                ∧ in_queue (w_inputs w' a)
                  = Nat.iter (occurrences a (fanout_targets w pl all))
                             (λ q, queue_send q msg) (in_queue (w_inputs w a))
                ∧ in_queue (w_inputs w'' a)
                  = Nat.iter (occurrences a (fanout_targets w pl all))
                             (λ q, (queue_trySend q msg).1) (in_queue (w_inputs w a))).
Proof.
  intros Hpl Hnode.
  pose proof (connection_targets_resolved w pl conn node Hnode) as Htargets.
  split; [|split; [|split]].
  - intros a. rewrite Htargets, list_elem_of_filter. unfold matches. tauto.
  - exists (deliver_all w (connection_targets w pl conn) msg).
    assert (send_inputs w conn (Node_getInputRefs w (w_nodes w node)) msg
            = deliver_all w (connection_targets w pl conn) msg) as Hinner
      by (by rewrite send_inputs_eq, Htargets).
    split; [done|]. split; [|split; [|split]].
    + rewrite (send_conns_cons w o pl conn [] msg node) by done. by rewrite Hinner.
    + rewrite (send_conns_cons w o pl conn conns msg node) by done. by rewrite Hinner.
    + apply deliver_all_frame.
    + intros a. apply deliver_all_queue.
  - exists (attempt_all w (connection_targets w pl conn) msg).1,
           (attempt_all w (connection_targets w pl conn) msg).2.
    assert (trySend_inputs w conn (Node_getInputRefs w (w_nodes w node)) msg success
            = ((attempt_all w (connection_targets w pl conn) msg).1,
               success && forallb id (attempt_all w (connection_targets w pl conn) msg).2))
      as Hinner by (by rewrite trySend_inputs_eq, Htargets).
    split; [done|]. split; [|split; [|split; [|split; [|split]]]].
    + rewrite (trySend_conns_cons w o pl conn [] msg success node) by done.
      by rewrite Hinner.
    + rewrite (trySend_conns_cons w o pl conn conns msg success node) by done.
      by rewrite Hinner.
    + by destruct (attempt_all w (connection_targets w pl conn) msg).
    + apply attempt_all_length.
    + apply attempt_all_frame.
    + intros a. apply attempt_all_queue.
  - intros all Hall Hres Hin.
    exists (deliver_all w (fanout_targets w pl all) msg),
           (attempt_all w (fanout_targets w pl all) msg).1,
           (attempt_all w (fanout_targets w pl all) msg).2.
    split; [|split; [|split]].
    + unfold Output_send. rewrite Hall. cbn [mbind result_bind].
      by apply (send_conns_resolved w o pl).
    + unfold Output_trySend. rewrite Hall. cbn [mbind result_bind].
      by rewrite (trySend_conns_resolved w o pl all msg true).
    + apply attempt_all_length.
    + intros a. split; [by apply occurrences_fanout_le|].
      split; [apply deliver_all_queue|apply attempt_all_queue].
Qed.

Lemma fanout_step_all_matches_witness :
  (∃ w1, send_conns demo_world demo_out [demo_connection "x" "in"] 5 = Ok w1
     ∧ bq_items (in_queue (w_inputs w1 34)) = [5]
     ∧ bq_items (in_queue (w_inputs w1 33)) = [5]
     ∧ bq_items (in_queue (w_inputs w1 30)) = [])
  ∧ (∃ w1, trySend_conns demo_world demo_out [demo_connection "x" "in"] 5 false
           = Ok (w1, false)
       ∧ bq_items (in_queue (w_inputs w1 34)) = [5]
       ∧ bq_items (in_queue (w_inputs w1 33)) = [5]
       ∧ bq_items (in_queue (w_inputs w1 30)) = [])
  ∧ (∃ w' w'' b, Output_send demo_world demo_out 5 = Ok w'
       ∧ Output_trySend demo_world demo_out 5 = Ok (w'', b)
       ∧ bq_items (in_queue (w_inputs w' 31)) = [5]
       ∧ bq_items (in_queue (w_inputs w'' 30)) = [5]
       ∧ bq_items (in_queue (w_inputs w'' 31)) = [7]
       ∧ bq_items (in_queue (w_inputs w'' 32)) = [5]).
Proof.
  split; [|split].
  - destruct (fanout_step_all_matches demo_world demo_out
                (mkPipelineImpl {[ 1%Z := 10; 2%Z := 11 ]}
                   [ demo_connection "a" ""; mkConnection 1 "other" "" 2 "a" "";
                     demo_connection "b" ""; mkConnection 2 "out" "" 2 "c" "";
                     demo_connection "c" "" ])
                (demo_connection "x" "in") [] 5 false 11 eq_refl eq_refl)
      as (_ & (w1 & _ & Hone & _ & _ & Hqueue) & _).
    exists w1. split; [exact Hone|]. rewrite !Hqueue. repeat split; reflexivity.
  - destruct (fanout_step_all_matches demo_world demo_out
                (mkPipelineImpl {[ 1%Z := 10; 2%Z := 11 ]}
                   [ demo_connection "a" ""; mkConnection 1 "other" "" 2 "a" "";
                     demo_connection "b" ""; mkConnection 2 "out" "" 2 "c" "";
                     demo_connection "c" "" ])
                (demo_connection "x" "in") [] 5 false 11 eq_refl eq_refl)
      as (_ & _ & (w1 & flags & _ & Hone & _ & _ & _ & _ & Hqueue) & _).
    exists w1. split; [exact Hone|]. rewrite !Hqueue. repeat split; reflexivity.
  - destruct (fanout_step_all_matches demo_world demo_out
                (mkPipelineImpl {[ 1%Z := 10; 2%Z := 11 ]}
                   [ demo_connection "a" ""; mkConnection 1 "other" "" 2 "a" "";
                     demo_connection "b" ""; mkConnection 2 "out" "" 2 "c" "";
                     demo_connection "c" "" ])
                (demo_connection "b" "") [] 5 true 11 eq_refl eq_refl)
      as (_ & _ & _ & Hwhole).
    destruct (Hwhole [demo_connection "a" ""; demo_connection "b" "";
                      demo_connection "c" ""] eq_refl)
      as (w' & w'' & flags & Hsend & Htry & _ & Hqueue).
    + apply (bool_decide_unpack _). vm_compute. exact I.
    + apply (bool_decide_unpack _). vm_compute. exact I.
    + exists w', w'', (forallb id flags). split; [exact Hsend|].
      split; [exact Htry|].
      destruct (Hqueue 31) as (_ & -> & _).
      destruct (Hqueue 30) as (_ & _ & ->).
      destruct (Hqueue 31) as (_ & _ & ->).
      destruct (Hqueue 32) as (_ & _ & ->).
      repeat split; reflexivity.
Defined.



(** C2, as the code has it.  [send] makes no test on the node it looks up.
    On an output of a live pipeline it returns exactly when every
    connection of the query names a registered node, and has then
    delivered, connection after connection, to every input the connections
    lead to; when some connection names a node that is not registered, the
    call dereferences the null node: no peer is skipped. *)
Theorem send_all_or_fault {Q Msg : Type} `{!MessageQueue Q Msg}
    (w : World Q) (o : Output) (pl : PipelineImpl) (conns : list Connection)
    (msg : Msg) :
  w_pipelines w (node_parent (w_nodes w (out_parent o))) = Some pl →
  Output_getConnections w o = Ok conns →
  (resolvable pl conns →
   Output_send w o msg = Ok (deliver_all w (fanout_targets w pl conns) msg)
   ∧ only_queues_differ w (deliver_all w (fanout_targets w pl conns) msg)
   ∧ ∀ a, in_queue (w_inputs (deliver_all w (fanout_targets w pl conns) msg) a)
          = Nat.iter (occurrences a (fanout_targets w pl conns))
                     (λ q, queue_send q msg) (in_queue (w_inputs w a)))
  ∧ (Exists (λ conn, Pipeline_getNode pl (inputId conn) = None) conns →
     Output_send w o msg = Err NullDeref).
Proof.
  intros Hpl Hconns. unfold Output_send. rewrite Hconns. cbn [mbind result_bind].
  split.
  - intros Hres. split; [by apply send_conns_resolved|].
    split; [apply deliver_all_frame|]. intros a. apply deliver_all_queue.
  - intros Hex. by apply (send_conns_unresolved w o pl).
Qed.

Lemma send_all_or_fault_witness :
  (∃ w', Output_send demo_world demo_out 5 = Ok w'
     ∧ bq_items (in_queue (w_inputs w' 30)) = [5]
     ∧ bq_items (in_queue (w_inputs w' 31)) = [5]
     ∧ bq_items (in_queue (w_inputs w' 32)) = [5])
  ∧ Output_send demo_world_gone demo_out 5 = Err NullDeref.
Proof.
  split.
  - destruct (send_all_or_fault demo_world demo_out
                (mkPipelineImpl {[ 1%Z := 10; 2%Z := 11 ]}
                   [ demo_connection "a" ""; mkConnection 1 "other" "" 2 "a" "";
                     demo_connection "b" ""; mkConnection 2 "out" "" 2 "c" "";
                     demo_connection "c" "" ])
                [demo_connection "a" ""; demo_connection "b" ""; demo_connection "c" ""]
                5 eq_refl eq_refl) as [Hsend _].
    destruct Hsend as (Hsend & _ & Hqueue).
    + apply (bool_decide_unpack _). vm_compute. exact I.
    + eexists. split; [exact Hsend|]. rewrite !Hqueue. repeat split; reflexivity.
  - destruct (send_all_or_fault demo_world_gone demo_out
                (mkPipelineImpl {[ 1%Z := 10; 2%Z := 11 ]}
                   [ mkConnection 1 "out" "" 3 "a" ""; demo_connection "a" "" ])
                [ mkConnection 1 "out" "" 3 "a" ""; demo_connection "a" "" ]
                5 eq_refl eq_refl) as [_ Hfault].
    apply Hfault. left. reflexivity.
Defined.

(** The first connection of the output names node 3, which the pipeline
    has not registered, and the second leads to the input [a] of node 2.
    [send] does not skip the first and deliver to [a]: it does not
    return. *)
Lemma send_unresolved_not_skipped :
  Output_getConnections demo_world_gone demo_out
  = Ok [mkConnection 1 "out" "" 3 "a" ""; demo_connection "a" ""]
  ∧ weak_lock demo_world_gone 0 = Some 0
  ∧ (∀ pl, w_pipelines demo_world_gone 0 = Some pl →
           Pipeline_getNode pl 3 = None ∧ Pipeline_getNode pl 2 = Some 11)
  ∧ Output_send demo_world_gone demo_out 5 = Err NullDeref
  ∧ ¬ ∃ w', Output_send demo_world_gone demo_out 5 = Ok w'.
Proof.
  split; [reflexivity|]. split; [reflexivity|]. split.
  - intros pl [= <-]. split; reflexivity.
  - assert (Output_send demo_world_gone demo_out 5 = Err NullDeref) as Hsend
      by reflexivity.
    split; [exact Hsend|]. intros [w' Hw']. rewrite Hsend in Hw'. discriminate.
Qed.

(** [trySend] has the same loop and the same fault. *)
Lemma trySend_unresolved_not_skipped :
  Output_trySend demo_world_gone demo_out 5 = Err NullDeref.
Proof. reflexivity. Qed.

(** * Further properties of the code *)

(** ** Connection records *)

(** X1.  [operator==] on connections answers true exactly for two records with
    the same six fields. *)
Theorem Connection_eq_structural (lhs rhs : Connection) :
  Connection_eq lhs rhs = true ↔ lhs = rhs.
Proof.
  unfold Connection_eq. rewrite !andb_true_iff, !bool_decide_eq_true. split.
  - intros [[[[[? ?] ?] ?] ?] ?]. destruct lhs, rhs. cbn in *. congruence.
  - by intros ->.
Qed.

Lemma getConnections_elem_of {Q : Type} (w : World Q) (o : Output) (pl : PipelineImpl) :
  w_pipelines w (node_parent (w_nodes w (out_parent o))) = Some pl →
  ∃ conns, Output_getConnections w o = Ok conns
    ∧ ∀ conn, conn ∈ conns
              ↔ conn ∈ Pipeline_getConnections pl
                ∧ outputId conn = node_id (w_nodes w (out_parent o))
                ∧ outputName conn = out_name o
                ∧ outputGroup conn = out_group o.
Proof.
  intros Hpl. unfold Output_getConnections, Node_getParentPipeline.
  rewrite Hpl. cbn [mbind result_bind mret result_ret]. eexists. split; [reflexivity|].
  intros conn.
  rewrite (fold_left_push_filter
             (λ conn, outputId conn = node_id (w_nodes w (out_parent o))
                      ∧ outputName conn = out_name o
                      ∧ outputGroup conn = out_group o)).
  - rewrite app_nil_l, list_elem_of_filter. tauto.
  - intros c. rewrite !andb_true_iff, !bool_decide_eq_true. tauto.
Qed.

(** X2.  A connection built from an output and an input is among the
    connections of that output exactly when the pipeline holds it: what
    was linked from a port is what the port finds. *)
Theorem getConnections_finds_made {Q : Type} (w : World Q) (o : Output)
    (pl : PipelineImpl) (inp : Input Q) :
  w_pipelines w (node_parent (w_nodes w (out_parent o))) = Some pl →
  ∃ conns, Output_getConnections w o = Ok conns
    ∧ (Connection_make w o inp ∈ conns
       ↔ Connection_make w o inp ∈ Pipeline_getConnections pl)
    ∧ ∀ conn, conn ∈ conns →
              outputId conn = outputId (Connection_make w o inp)
              ∧ outputName conn = outputName (Connection_make w o inp)
              ∧ outputGroup conn = outputGroup (Connection_make w o inp).
Proof.
  intros Hpl. destruct (getConnections_elem_of w o pl Hpl) as (conns & Hconns & Helem).
  exists conns. split; [done|]. split.
  - rewrite Helem. cbn. tauto.
  - intros conn Hin. apply Helem in Hin. cbn. tauto.
Qed.

Lemma getConnections_finds_made_witness :
  ∃ conns, Output_getConnections demo_world demo_out = Ok conns
    ∧ Connection_make demo_world demo_out (w_inputs demo_world 31) ∈ conns.
Proof.
  destruct (getConnections_finds_made demo_world demo_out
              (mkPipelineImpl {[ 1%Z := 10; 2%Z := 11 ]}
                 [ demo_connection "a" ""; mkConnection 1 "other" "" 2 "a" "";
                   demo_connection "b" ""; mkConnection 2 "out" "" 2 "c" "";
                   demo_connection "c" "" ])
              (w_inputs demo_world 31) eq_refl) as (conns & Hconns & Hmade & _).
  exists conns. split; [exact Hconns|]. apply Hmade.
  apply (bool_decide_unpack _). vm_compute. exact I.
Defined.

(** X3.  Two outputs that differ in the identifier of the node, in the group or
    in the name have no connection in common, whatever the pipelines hold. *)
Theorem getConnections_disjoint {Q : Type} (w : World Q) (o1 o2 : Output)
    (conns1 conns2 : list Connection) (conn : Connection) :
  Output_getConnections w o1 = Ok conns1 →
  Output_getConnections w o2 = Ok conns2 →
  (node_id (w_nodes w (out_parent o1)), out_group o1, out_name o1)
  ≠ (node_id (w_nodes w (out_parent o2)), out_group o2, out_name o2) →
  conn ∈ conns1 → conn ∉ conns2.
Proof.
  intros H1 H2 Hne Hin1 Hin2.
  destruct (w_pipelines w (node_parent (w_nodes w (out_parent o1)))) as [pl1|] eqn:Hpl1;
    [|by rewrite getConnections_expired in H1].
  destruct (w_pipelines w (node_parent (w_nodes w (out_parent o2)))) as [pl2|] eqn:Hpl2;
    [|by rewrite getConnections_expired in H2].
  destruct (getConnections_elem_of w o1 pl1 Hpl1) as (l1 & Hl1 & Helem1).
  destruct (getConnections_elem_of w o2 pl2 Hpl2) as (l2 & Hl2 & Helem2).
  rewrite Hl1 in H1. rewrite Hl2 in H2. simplify_eq.
  apply Helem1 in Hin1 as (_ & Hid1 & Hname1 & Hgroup1).
  apply Helem2 in Hin2 as (_ & Hid2 & Hname2 & Hgroup2).
  apply Hne. congruence.
Qed.

Lemma getConnections_disjoint_witness :
  Output_getConnections demo_world (mkOutput 10 "" "other")
  = Ok [mkConnection 1 "other" "" 2 "a" ""]
  ∧ demo_connection "a" "" ∉ [mkConnection 1 "other" "" 2 "a" ""].
Proof.
  split; [reflexivity|].
  apply (getConnections_disjoint demo_world demo_out (mkOutput 10 "" "other")
           [demo_connection "a" ""; demo_connection "b" ""; demo_connection "c" ""]
           [mkConnection 1 "other" "" 2 "a" ""]).
  - reflexivity.
  - reflexivity.
  - discriminate.
  - left.
Defined.

(** ** A pipeline that is gone, a node that is not registered *)

(** X4.  Once the pipeline of the node of an output has been destroyed, the
    query of its connections, [send], [trySend] and [getParentPipeline]
    all throw [bad_weak_ptr] and return nothing, while [loadResource] on
    the node dereferences the null pointer that the lock returns. *)
Theorem expired_pipeline_throws {Q Msg : Type} `{!MessageQueue Q Msg}
    (loadResourceCwd : PipelineImpl → string → string → list Z)
    (w : World Q) (o : Output) (msg : Msg) (uri : string) :
  w_pipelines w (node_parent (w_nodes w (out_parent o))) = None →
  Output_getConnections w o = Err BadWeakPtr
  ∧ Output_send w o msg = Err BadWeakPtr
  ∧ Output_trySend w o msg = Err BadWeakPtr
  ∧ Node_getParentPipeline w (w_nodes w (out_parent o)) = Err BadWeakPtr
  ∧ Node_loadResource loadResourceCwd w (w_nodes w (out_parent o)) uri = Err NullDeref.
Proof.
  intros Hpl. unfold Output_send, Output_trySend.
  rewrite (getConnections_expired w o Hpl).
  unfold Node_loadResource, Node_getParentPipeline, weak_lock. by rewrite Hpl.
Qed.

Lemma expired_pipeline_throws_witness :
  Output_send
    (mkWorld (w_outputs demo_world) (w_inputs demo_world) (w_outputMaps demo_world)
             (w_inputMaps demo_world) (w_nodes demo_world) (λ _, None) 50)
    demo_out 5 = Err BadWeakPtr.
Proof.
  apply (expired_pipeline_throws (λ _ _ _, [])
           (mkWorld (w_outputs demo_world) (w_inputs demo_world)
                    (w_outputMaps demo_world) (w_inputMaps demo_world)
                    (w_nodes demo_world) (λ _, None) 50)
           demo_out 5 "").
  reflexivity.
Defined.

(** X5.  With a live pipeline [loadResource] asks the pipeline for the resource
    relative to the directory named after the identifier of the node, the
    same string the constructor forms for the asset manager. *)
Theorem loadResource_cwd {Q : Type}
    (loadResourceCwd : PipelineImpl → string → string → list Z)
    (w : World Q) (n : Node) (pl : PipelineImpl) (uri : string) :
  w_pipelines w (node_parent n) = Some pl →
  Node_loadResource loadResourceCwd w n uri
  = Ok (loadResourceCwd pl uri (Node_assetRoot (node_id n))).
Proof.
  intros Hpl. unfold Node_loadResource, weak_lock. rewrite Hpl. cbn iota.
  rewrite Hpl. reflexivity.
Qed.

Lemma loadResource_cwd_witness :
  Node_loadResource (λ _ uri cwd, [Z.of_nat (String.length (cwd +:+ uri))])
                    demo_world (w_nodes demo_world 11) "blob"
  = Ok [12%Z].
Proof.
  rewrite (loadResource_cwd _ demo_world (w_nodes demo_world 11)
             (mkPipelineImpl {[ 1%Z := 10; 2%Z := 11 ]}
                [ demo_connection "a" ""; mkConnection 1 "other" "" 2 "a" "";
                  demo_connection "b" ""; mkConnection 2 "out" "" 2 "c" "";
                  demo_connection "c" "" ])).
  - reflexivity.
  - reflexivity.
Defined.

(** X6.  [trySend] has the loop of [send]: when a connection of the output
    names a node that the pipeline has not registered, the call
    dereferences the null node; it does not answer false. *)
Theorem trySend_unresolved_faults {Q Msg : Type} `{!MessageQueue Q Msg}
    (w : World Q) (o : Output) (pl : PipelineImpl) (conns : list Connection)
    (msg : Msg) :
  w_pipelines w (node_parent (w_nodes w (out_parent o))) = Some pl →
  Output_getConnections w o = Ok conns →
  Exists (λ conn, Pipeline_getNode pl (inputId conn) = None) conns →
  Output_trySend w o msg = Err NullDeref.
Proof.
  intros Hpl Hconns Hex. unfold Output_trySend. rewrite Hconns.
  cbn [mbind result_bind]. by apply (trySend_conns_unresolved w o pl).
Qed.

Lemma trySend_unresolved_faults_witness :
  Output_trySend demo_world_gone demo_out 5 = Err NullDeref.
Proof.
  apply (trySend_unresolved_faults demo_world_gone demo_out
           (mkPipelineImpl {[ 1%Z := 10; 2%Z := 11 ]}
              [ mkConnection 1 "out" "" 3 "a" ""; demo_connection "a" "" ])
           [ mkConnection 1 "out" "" 3 "a" ""; demo_connection "a" "" ] 5).
  - reflexivity.
  - reflexivity.
  - left. reflexivity.
Defined.

(** ** What a fan-out reaches and what it leaves alone *)

Section FanOutReach.
Context {Q Msg : Type} `{!MessageQueue Q Msg}.
Implicit Types (w : World Q) (msg : Msg) (conn : Connection) (o : Output).

Lemma occurrences_elem (a : addr) (l : list addr) :
  a ∈ l → ∃ n, occurrences a l = S n.
Proof.
  induction l as [|p l IH]; [by intros ?%elem_of_nil|].
  rewrite occurrences_cons. intros Hin.
  destruct (decide (p = a)) as [->|Hne]; [eauto|].
  apply elem_of_cons in Hin as [->|Hin]; [done|by apply IH].
Qed.

Lemma fanout_targets_elem w pl conns conn a :
  conn ∈ conns → a ∈ connection_targets w pl conn → a ∈ fanout_targets w pl conns.
Proof. intros Hconn Ha. unfold fanout_targets. apply list_elem_of_bind. eauto. Qed.

Lemma send_conns_frame w o conns msg w' :
  send_conns w o conns msg = Ok w' → only_queues_differ w w'.
Proof.
  revert w. induction conns as [|conn conns IH]; intros w.
  - intros [= <-]. apply only_queues_differ_refl.
  - cbn [send_conns]. unfold Node_getParentPipeline.
    destruct (w_pipelines w (node_parent (w_nodes w (out_parent o)))) as [pl|];
      [|done]. cbn [mbind result_bind].
    destruct (Pipeline_getNode pl (inputId conn)) as [node|]; [|done].
    intros Hrest. apply IH in Hrest.
    eapply only_queues_differ_trans; [|exact Hrest].
    rewrite send_inputs_eq. apply deliver_all_frame.
Qed.

Lemma trySend_conns_frame w o conns msg success w' b :
  trySend_conns w o conns msg success = Ok (w', b) → only_queues_differ w w'.
Proof.
  revert w success. induction conns as [|conn conns IH]; intros w success.
  - intros [= <- _]. apply only_queues_differ_refl.
  - cbn [trySend_conns]. unfold Node_getParentPipeline.
    destruct (w_pipelines w (node_parent (w_nodes w (out_parent o)))) as [pl|];
      [|done]. cbn [mbind result_bind].
    destruct (Pipeline_getNode pl (inputId conn)) as [node|]; [|done].
    intros Hrest. apply IH in Hrest.
    eapply only_queues_differ_trans; [|exact Hrest].
    rewrite trySend_inputs_eq. cbn [fst]. apply attempt_all_frame.
Qed.

Lemma scan_inputs_frame w w' refs group name :
  only_queues_differ w w' →
  scan_inputs w' refs group name = scan_inputs w refs group name.
Proof.
  intros Hw. induction refs as [|p refs IH]; [done|]. cbn.
  destruct (only_queues_differ_names w w' p Hw) as [-> ->]. by rewrite IH.
Qed.

Lemma only_queues_differ_policy w w' a :
  only_queues_differ w w' →
  Input_getBlocking (w_inputs w' a) = Input_getBlocking (w_inputs w a)
  ∧ Input_getQueueSize (w_inputs w' a) = Input_getQueueSize (w_inputs w a)
  ∧ Input_getWaitForMessage (w_inputs w' a) = Input_getWaitForMessage (w_inputs w a)
  ∧ Input_toString (w_inputs w' a) = Input_toString (w_inputs w a).
Proof.
  intros (_ & _ & _ & _ & _ & _ & Hin). rewrite <- (Hin a).
  by destruct (w_inputs w' a).
Qed.

Lemma getConnections_frame w w' o :
  only_queues_differ w w' → Output_getConnections w' o = Output_getConnections w o.
Proof.
  intros (_ & _ & _ & Hnodes & Hpl & _).
  unfold Output_getConnections, Node_getParentPipeline. by rewrite Hnodes, Hpl.
Qed.

Lemma fanout_targets_nil w pl conns :
  (∀ conn node a, conn ∈ conns →
     Pipeline_getNode pl (inputId conn) = Some node →
     a ∈ Node_getInputRefs w (w_nodes w node) →
     ¬ (in_group (w_inputs w a) = inputGroup conn
        ∧ in_name (w_inputs w a) = inputName conn)) →
  fanout_targets w pl conns = [].
Proof.
  intros Hnone. induction conns as [|conn conns IH]; [done|].
  rewrite fanout_targets_cons, IH, app_nil_r.
  - unfold connection_targets.
    destruct (Pipeline_getNode pl (inputId conn)) as [node|] eqn:Hnode; [|done].
    apply elem_of_nil_inv. intros a [Hm Hin]%list_elem_of_filter.
    by apply (Hnone conn node a); [left|..].
  - intros conn' node a Hin. apply Hnone. by right.
Qed.
End FanOutReach.

(** X7.  An input that is linked to an output gets the message: when the
    connection made of the two is among the connections of the output, the
    node of the input is registered under its identifier and the node
    enumerates the input, the queue of the input after [send] is the
    result of a [send] on it, and after [trySend] the result of a
    [trySend]. *)
Theorem fanout_reaches_linked_input {Q Msg : Type} `{!MessageQueue Q Msg}
    (w : World Q) (o : Output) (pl : PipelineImpl) (conns : list Connection)
    (msg : Msg) (a : addr) :
  w_pipelines w (node_parent (w_nodes w (out_parent o))) = Some pl →
  Output_getConnections w o = Ok conns →
  resolvable pl conns →
  Connection_make w o (w_inputs w a) ∈ conns →
  Pipeline_getNode pl (node_id (w_nodes w (in_parent (w_inputs w a))))
  = Some (in_parent (w_inputs w a)) →
  a ∈ Node_getInputRefs w (w_nodes w (in_parent (w_inputs w a))) →
  (∃ w' q, Output_send w o msg = Ok w'
     ∧ in_queue (w_inputs w' a) = queue_send q msg)
  ∧ (∃ w' b q, Output_trySend w o msg = Ok (w', b)
       ∧ in_queue (w_inputs w' a) = (queue_trySend q msg).1).
Proof.
  intros Hpl Hconns Hres Hlinked Hreg Henum.
  assert (a ∈ fanout_targets w pl conns) as Htarget.
  { apply (fanout_targets_elem w pl conns (Connection_make w o (w_inputs w a)));
      [done|].
    rewrite (connection_targets_resolved w pl _ (in_parent (w_inputs w a))) by done.
    apply list_elem_of_filter. by split. }
  destruct (occurrences_elem a _ Htarget) as [n Hn].
  split.
  - eexists _, _. split.
    + unfold Output_send. rewrite Hconns. cbn [mbind result_bind].
      by apply (send_conns_resolved w o pl).
    + rewrite deliver_all_queue, Hn. reflexivity.
  - eexists _, _, _. split.
    + unfold Output_trySend. rewrite Hconns. cbn [mbind result_bind].
      by apply (trySend_conns_resolved w o pl).
    + cbn [fst]. rewrite attempt_all_queue, Hn. reflexivity.
Qed.

Lemma fanout_reaches_linked_input_witness :
  (∃ w' q, Output_send demo_world demo_out 5 = Ok w'
     ∧ in_queue (w_inputs w' 31) = queue_send q 5)
  ∧ (∃ w' b q, Output_trySend demo_world demo_out 5 = Ok (w', b)
       ∧ in_queue (w_inputs w' 31) = (queue_trySend q 5).1).
Proof.
  apply (fanout_reaches_linked_input demo_world demo_out
           (mkPipelineImpl {[ 1%Z := 10; 2%Z := 11 ]}
              [ demo_connection "a" ""; mkConnection 1 "other" "" 2 "a" "";
                demo_connection "b" ""; mkConnection 2 "out" "" 2 "c" "";
                demo_connection "c" "" ])
           [demo_connection "a" ""; demo_connection "b" ""; demo_connection "c" ""]
           5 31).
  - reflexivity.
  - reflexivity.
  - apply (bool_decide_unpack _). vm_compute. exact I.
  - apply (bool_decide_unpack _). vm_compute. exact I.
  - reflexivity.
  - apply (bool_decide_unpack _). vm_compute. exact I.
Defined.

(** X8.  A connection whose node enumerates no input with the group and the
    name of its input end reaches nobody, and nothing reports it: when
    this holds of every connection of the output, [send] returns with the
    world as it was and [trySend] answers true. *)
Theorem unmatched_connections_are_dropped {Q Msg : Type} `{!MessageQueue Q Msg}
    (w : World Q) (o : Output) (pl : PipelineImpl) (conns : list Connection)
    (msg : Msg) :
  w_pipelines w (node_parent (w_nodes w (out_parent o))) = Some pl →
  Output_getConnections w o = Ok conns →
  resolvable pl conns →
  (∀ conn node a, conn ∈ conns →
     Pipeline_getNode pl (inputId conn) = Some node →
     a ∈ Node_getInputRefs w (w_nodes w node) →
     ¬ (in_group (w_inputs w a) = inputGroup conn
        ∧ in_name (w_inputs w a) = inputName conn)) →
  Output_send w o msg = Ok w ∧ Output_trySend w o msg = Ok (w, true).
Proof.
  intros Hpl Hconns Hres Hnone.
  unfold Output_send, Output_trySend. rewrite Hconns. cbn [mbind result_bind].
  rewrite (send_conns_resolved w o pl), (trySend_conns_resolved w o pl) by done.
  by rewrite (fanout_targets_nil w pl conns Hnone).
Qed.

Lemma unmatched_connections_are_dropped_witness :
  Output_send demo_world_typo demo_out 5 = Ok demo_world_typo
  ∧ Output_trySend demo_world_typo demo_out 5 = Ok (demo_world_typo, true).
Proof.
  apply (unmatched_connections_are_dropped demo_world_typo demo_out
           (mkPipelineImpl {[ 1%Z := 10; 2%Z := 11 ]} [demo_connection "z" ""])
           [demo_connection "z" ""] 5 eq_refl eq_refl).
  - apply (bool_decide_unpack _). vm_compute. exact I.
  - intros conn node a Hconn Hnode Ha [_ Hname].
    apply list_elem_of_singleton in Hconn as ->.
    assert (node = 11) as -> by (vm_compute in Hnode; congruence).
    assert (Node_getInputRefs demo_world_typo (w_nodes demo_world_typo 11)
            = [30; 31; 32; 34; 33]) as Hrefs by reflexivity.
    rewrite Hrefs in Ha.
    repeat (apply elem_of_cons in Ha as [->|Ha]; [vm_compute in Hname; discriminate|]).
    by apply elem_of_nil in Ha.
Defined.

(** X9.  A fan-out changes queues and nothing else: after a [send] or a
    [trySend] that returned, every node enumerates the same ports, every
    lookup of an input by group and name finds the same port, every output
    has the same connections, and every input has the same delivery policy
    and prints the same. *)
Theorem fanout_changes_queues_only {Q Msg : Type} `{!MessageQueue Q Msg}
    (w w' : World Q) (o : Output) (msg : Msg) :
  (Output_send w o msg = Ok w' ∨ ∃ b, Output_trySend w o msg = Ok (w', b)) →
  (∀ n, Node_getInputRefs w' n = Node_getInputRefs w n
        ∧ Node_getOutputRefs w' n = Node_getOutputRefs w n)
  ∧ (∀ n group name,
       Node_getInputRef2 w' n group name = Node_getInputRef2 w n group name)
  ∧ (∀ o', Output_getConnections w' o' = Output_getConnections w o')
  ∧ (∀ a, Input_getBlocking (w_inputs w' a) = Input_getBlocking (w_inputs w a)
          ∧ Input_getQueueSize (w_inputs w' a) = Input_getQueueSize (w_inputs w a)
          ∧ Input_getWaitForMessage (w_inputs w' a)
            = Input_getWaitForMessage (w_inputs w a)
          ∧ Input_toString (w_inputs w' a) = Input_toString (w_inputs w a)).
Proof.
  intros Hcall.
  assert (only_queues_differ w w') as Hw.
  { destruct Hcall as [Hsend|[b Htry]].
    - unfold Output_send in Hsend.
      destruct (Output_getConnections w o) as [conns|]; [|done].
      by apply (send_conns_frame w o conns msg).
    - unfold Output_trySend in Htry.
      destruct (Output_getConnections w o) as [conns|]; [|done].
      by apply (trySend_conns_frame w o conns msg true w' b). }
  split; [|split; [|split]].
  - intros n. split; [by apply getInputRefs_frame|].
    destruct Hw as (_ & Hom & _). unfold Node_getOutputRefs. by rewrite Hom.
  - intros n group name. unfold Node_getInputRef2.
    by rewrite (getInputRefs_frame w w'), (scan_inputs_frame w w').
  - intros o'. by apply getConnections_frame.
  - intros a. by apply only_queues_differ_policy.
Qed.

Lemma fanout_changes_queues_only_witness :
  ∃ w', Output_trySend demo_world demo_out 5 = Ok (w', false)
    ∧ Node_getInputRef2 w' (w_nodes demo_world 11) "" "b" = Some 31
    ∧ Input_getQueueSize (w_inputs w' 31) = 8%Z.
Proof.
  exists (attempt_all demo_world [30; 31; 32] 5).1. split; [reflexivity|].
  destruct (fanout_changes_queues_only demo_world
              (attempt_all demo_world [30; 31; 32] 5).1 demo_out 5)
    as (_ & Href & _ & Hpolicy).
  - right. exists false. reflexivity.
  - rewrite Href. destruct (Hpolicy 31) as (_ & -> & _). split; reflexivity.
Defined.

(** ** Delivery policy *)

Lemma last_blocking_snoc (cs : list setter_call) (c : setter_call) :
  last_blocking (cs ++ [c])
  = match c with CallSetBlocking b => Some b | _ => last_blocking cs end.
Proof. unfold last_blocking. by rewrite fold_left_app. Qed.

Lemma last_queueSize_snoc (cs : list setter_call) (c : setter_call) :
  last_queueSize (cs ++ [c])
  = match c with CallSetQueueSize n => Some n | _ => last_queueSize cs end.
Proof. unfold last_queueSize. by rewrite fold_left_app. Qed.

Lemma last_waitForMessage_snoc (cs : list setter_call) (c : setter_call) :
  last_waitForMessage (cs ++ [c])
  = match c with
    | CallPolicy (CallSetWaitForMessage b) => Some b
    | CallPolicy (CallSetReusePreviousMessage b) => Some (negb b)
    | _ => last_waitForMessage cs
    end.
Proof. unfold last_waitForMessage. by rewrite fold_left_app. Qed.

(** X10.  The three settings of an input are independent and the last call
    wins: after any sequence of calls to the four setters each getter
    answers what the last call for its setting asked for, a call to
    [setReusePreviousMessage] counting as a call for the wait setting with
    the negated argument, and the default of the input when no call
    concerned the setting and none was set before; the group, the name and
    the queue stay. *)
Theorem setters_last_call_wins {Q : Type} (i : Input Q) (cs : list setter_call) :
  Input_getBlocking (run_setter_calls i cs)
  = default (Input_getBlocking i) (last_blocking cs)
  ∧ Input_getQueueSize (run_setter_calls i cs)
    = default (Input_getQueueSize i) (last_queueSize cs)
  ∧ Input_getWaitForMessage (run_setter_calls i cs)
    = default (Input_getWaitForMessage i) (last_waitForMessage cs)
  ∧ Input_getReusePreviousMessage (run_setter_calls i cs)
    = negb (default (Input_getWaitForMessage i) (last_waitForMessage cs))
  ∧ in_group (run_setter_calls i cs) = in_group i
  ∧ in_name (run_setter_calls i cs) = in_name i
  ∧ in_queue (run_setter_calls i cs) = in_queue i.
Proof.
  induction cs as [|c cs IH] using rev_ind.
  - cbn. repeat split; try done.
  - unfold run_setter_calls in *. rewrite fold_left_app. cbn [fold_left].
    rewrite last_blocking_snoc, last_queueSize_snoc, last_waitForMessage_snoc.
    destruct IH as (Hb & Hq & Hw & Hr & Hg & Hn & Hqueue).
    destruct c as [b|size|[b|b]]; cbn; repeat split; try done.
    all: unfold Input_getReusePreviousMessage, Input_getWaitForMessage in *; cbn;
      try done; by rewrite ?negb_involutive.
Qed.

Lemma setters_last_call_wins_example :
  Input_getBlocking
    (run_setter_calls (demo_input "" "a" [] 2)
       [CallSetQueueSize 3; CallSetBlocking false; CallPolicy (CallSetReusePreviousMessage true);
        CallSetQueueSize 5]) = false
  ∧ Input_getQueueSize
      (run_setter_calls (demo_input "" "a" [] 2)
         [CallSetQueueSize 3; CallSetBlocking false;
          CallPolicy (CallSetReusePreviousMessage true); CallSetQueueSize 5]) = 5%Z.
Proof. split; reflexivity. Qed.

(** ** Registration of ports with the node *)

Lemma table_assign_NoDup {V : Type} (t : list (string * V)) (key : string) (v : V) :
  NoDup t.*1 → NoDup (table_assign t key v).*1.
Proof.
  intros Hnodup. destruct (decide (key ∈ t.*1)) as [Hin|Hnot].
  - by rewrite table_assign_keys.
  - rewrite table_assign_fresh, fmap_app by done. cbn.
    apply NoDup_app. split; [done|]. split; [|apply NoDup_singleton].
    intros k Hk ->%list_elem_of_singleton. done.
Qed.

Lemma table_assign_at_ne {V : Type} (t : list (string * V)) (key key' : string) (v : V) :
  key' ≠ key → table_at (table_assign t key v) key' = table_at t key'.
Proof.
  intros Hne. induction t as [|kv t IH]; cbn.
  - by rewrite bool_decide_eq_false_2.
  - destruct (decide (kv.1 = key)) as [Heq|Hne'].
    + rewrite bool_decide_eq_true_2 by done. cbn.
      rewrite !bool_decide_eq_false_2; [done|congruence..].
    + rewrite bool_decide_eq_false_2 by done. cbn. by rewrite IH.
Qed.

Lemma table_assign_idemp {V : Type} (t : list (string * V)) (key : string) (v : V) :
  table_assign (table_assign t key v) key v = table_assign t key v.
Proof.
  induction t as [|kv t IH]; cbn.
  - by rewrite bool_decide_eq_true_2.
  - destruct (decide (kv.1 = key)) as [Heq|Hne].
    + rewrite bool_decide_eq_true_2 by done. cbn. by rewrite bool_decide_eq_true_2.
    + rewrite bool_decide_eq_false_2 by done. cbn.
      rewrite bool_decide_eq_false_2 by done. by rewrite IH.
Qed.

Lemma table_assign_values {V : Type} (t : list (string * V)) (key : string) (v : V) :
  v ∈ (table_assign t key v).*2
  ∧ ∀ x, x ∈ (table_assign t key v).*2 → x = v ∨ x ∈ t.*2.
Proof.
  induction t as [|kv t [IHin IHsub]]; cbn.
  - split; [left|]. intros x ?%list_elem_of_singleton. by left.
  - destruct (decide (kv.1 = key)) as [Heq|Hne].
    + rewrite bool_decide_eq_true_2 by done. cbn. split; [left|].
      intros x [->|Hx]%elem_of_cons; [by left|right; by right].
    + rewrite bool_decide_eq_false_2 by done. cbn. split; [by right|].
      intros x [->|Hx]%elem_of_cons; [right; left|].
      destruct (IHsub x Hx) as [->|?]; [by left|right; by right].
Qed.

Lemma scan_outputs_finds {Q : Type} (w : World Q) (refs : list addr)
    (group name : string) (p : addr) :
  p ∈ refs → out_group (w_outputs w p) = group → out_name (w_outputs w p) = name →
  ∃ q, scan_outputs w refs group name = Some q
    ∧ out_group (w_outputs w q) = group ∧ out_name (w_outputs w q) = name.
Proof.
  intros Hin Hg Hn. pose proof (scan_outputs_spec w refs group name) as Hscan.
  destruct (scan_outputs w refs group name) as [q|].
  - destruct Hscan as (_ & _ & _ & ? & ? & _). eauto.
  - rewrite Forall_forall in Hscan. by destruct (Hscan p Hin).
Qed.

Lemma scan_inputs_finds {Q : Type} (w : World Q) (refs : list addr)
    (group name : string) (p : addr) :
  p ∈ refs → in_group (w_inputs w p) = group → in_name (w_inputs w p) = name →
  ∃ q, scan_inputs w refs group name = Some q
    ∧ in_group (w_inputs w q) = group ∧ in_name (w_inputs w q) = name.
Proof.
  intros Hin Hg Hn. pose proof (scan_inputs_spec w refs group name) as Hscan.
  destruct (scan_inputs w refs group name) as [q|].
  - destruct Hscan as (_ & _ & _ & ? & ? & _). eauto.
  - rewrite Forall_forall in Hscan. by destruct (Hscan p Hin).
Qed.

(** X11.  Registering a port enters it under its name: the name then denotes
    that port, every other name denotes what it did, the names of the
    table stay pairwise distinct, and the three other tables are not
    touched.  This holds of the four registration calls alike. *)
Theorem registration_replaces_by_name {Q : Type} (w : World Q) (n : Node) (p : addr) :
  (table_at (outputRefs (Node_setOutputRefs w n p)) (out_name (w_outputs w p)) = Ok p
   ∧ (∀ k, k ≠ out_name (w_outputs w p) →
           table_at (outputRefs (Node_setOutputRefs w n p)) k = table_at (outputRefs n) k)
   ∧ (NoDup (outputRefs n).*1 → NoDup (outputRefs (Node_setOutputRefs w n p)).*1)
   ∧ inputRefs (Node_setOutputRefs w n p) = inputRefs n
   ∧ outputMapRefs (Node_setOutputRefs w n p) = outputMapRefs n
   ∧ inputMapRefs (Node_setOutputRefs w n p) = inputMapRefs n)
  ∧ (table_at (inputRefs (Node_setInputRefs w n p)) (in_name (w_inputs w p)) = Ok p
     ∧ (∀ k, k ≠ in_name (w_inputs w p) →
             table_at (inputRefs (Node_setInputRefs w n p)) k = table_at (inputRefs n) k)
     ∧ (NoDup (inputRefs n).*1 → NoDup (inputRefs (Node_setInputRefs w n p)).*1)
     ∧ outputRefs (Node_setInputRefs w n p) = outputRefs n
     ∧ outputMapRefs (Node_setInputRefs w n p) = outputMapRefs n
     ∧ inputMapRefs (Node_setInputRefs w n p) = inputMapRefs n)
  ∧ (table_at (outputMapRefs (Node_setOutputMapRefs w n p))
              (om_name (w_outputMaps w p)) = Ok p
     ∧ (∀ k, k ≠ om_name (w_outputMaps w p) →
             table_at (outputMapRefs (Node_setOutputMapRefs w n p)) k
             = table_at (outputMapRefs n) k)
     ∧ (NoDup (outputMapRefs n).*1 →
        NoDup (outputMapRefs (Node_setOutputMapRefs w n p)).*1)
     ∧ outputRefs (Node_setOutputMapRefs w n p) = outputRefs n
     ∧ inputRefs (Node_setOutputMapRefs w n p) = inputRefs n
     ∧ inputMapRefs (Node_setOutputMapRefs w n p) = inputMapRefs n)
  ∧ (table_at (inputMapRefs (Node_setInputMapRefs w n p))
              (im_name (w_inputMaps w p)) = Ok p
     ∧ (∀ k, k ≠ im_name (w_inputMaps w p) →
             table_at (inputMapRefs (Node_setInputMapRefs w n p)) k
             = table_at (inputMapRefs n) k)
     ∧ (NoDup (inputMapRefs n).*1 →
        NoDup (inputMapRefs (Node_setInputMapRefs w n p)).*1)
     ∧ outputRefs (Node_setInputMapRefs w n p) = outputRefs n
     ∧ inputRefs (Node_setInputMapRefs w n p) = inputRefs n
     ∧ outputMapRefs (Node_setInputMapRefs w n p) = outputMapRefs n).
Proof.
  repeat split; cbn; try done;
    first [ apply table_assign_at
          | by intros; apply table_assign_at_ne
          | by apply table_assign_NoDup ].
Qed.

(** X12.  A port that has been registered is enumerated and a lookup with its
    group and its name finds a port with that group and name; registering
    it a second time changes nothing. *)
Theorem registered_port_is_found {Q : Type} (w : World Q) (n : Node) (p : addr) :
  (p ∈ Node_getOutputRefs w (Node_setOutputRefs w n p)
   ∧ (∃ q, Node_getOutputRef2 w (Node_setOutputRefs w n p)
             (out_group (w_outputs w p)) (out_name (w_outputs w p)) = Some q
           ∧ out_group (w_outputs w q) = out_group (w_outputs w p)
           ∧ out_name (w_outputs w q) = out_name (w_outputs w p))
   ∧ Node_setOutputRefs w (Node_setOutputRefs w n p) p = Node_setOutputRefs w n p)
  ∧ (p ∈ Node_getInputRefs w (Node_setInputRefs w n p)
     ∧ (∃ q, Node_getInputRef2 w (Node_setInputRefs w n p)
               (in_group (w_inputs w p)) (in_name (w_inputs w p)) = Some q
             ∧ in_group (w_inputs w q) = in_group (w_inputs w p)
             ∧ in_name (w_inputs w q) = in_name (w_inputs w p))
     ∧ Node_setInputRefs w (Node_setInputRefs w n p) p = Node_setInputRefs w n p).
Proof.
  assert (p ∈ Node_getOutputRefs w (Node_setOutputRefs w n p)) as Hout.
  { rewrite getOutputRefs_eq. apply elem_of_app. left. cbn.
    apply table_assign_values. }
  assert (p ∈ Node_getInputRefs w (Node_setInputRefs w n p)) as Hin.
  { rewrite getInputRefs_eq. apply elem_of_app. left. cbn.
    apply table_assign_values. }
  split; (split; [done|split]).
  - by apply (scan_outputs_finds w _ _ _ p).
  - unfold Node_setOutputRefs. cbn. by rewrite table_assign_idemp.
  - by apply (scan_inputs_finds w _ _ _ p).
  - unfold Node_setInputRefs. cbn. by rewrite table_assign_idemp.
Qed.

Lemma table_assign_overwrite {V : Type} (t : list (string * V)) (key : string) (v1 v2 : V) :
  table_assign (table_assign t key v1) key v2 = table_assign t key v2.
Proof.
  induction t as [|kv t IH]; cbn.
  - by rewrite bool_decide_eq_true_2.
  - destruct (decide (kv.1 = key)) as [Heq|Hne].
    + rewrite bool_decide_eq_true_2 by done. cbn. by rewrite bool_decide_eq_true_2.
    + rewrite bool_decide_eq_false_2 by done. cbn.
      rewrite bool_decide_eq_false_2 by done. by rewrite IH.
Qed.

(** X13.  Two ports registered under one name: the second takes the entry of
    the first, and the node is as if the first had never been registered,
    so the first is no longer reached through the table. *)
Theorem same_name_registration_overwrites {Q : Type} (w : World Q) (n : Node)
    (p1 p2 : addr) :
  (out_name (w_outputs w p1) = out_name (w_outputs w p2) →
   Node_setOutputRefs w (Node_setOutputRefs w n p1) p2 = Node_setOutputRefs w n p2)
  ∧ (in_name (w_inputs w p1) = in_name (w_inputs w p2) →
     Node_setInputRefs w (Node_setInputRefs w n p1) p2 = Node_setInputRefs w n p2).
Proof.
  split; intros Hname.
  - unfold Node_setOutputRefs. cbn. by rewrite Hname, table_assign_overwrite.
  - unfold Node_setInputRefs. cbn. by rewrite Hname, table_assign_overwrite.
Qed.

Lemma same_name_registration_overwrites_witness :
  Node_getInputRefs demo_world
    (Node_setInputRefs demo_world (Node_setInputRefs demo_world (Node_new 0 2) 34) 33)
  = [33].
Proof.
  destruct (same_name_registration_overwrites demo_world (Node_new 0 2) 34 33)
    as [_ Hin].
  rewrite Hin; reflexivity.
Defined.

(** ** Port groups *)

Section MapInvariant.
Context {Q : Type}.
Implicit Types (w : World Q) (m : addr) (key : string).

Lemma OutputMap_index_frame w m key w' ref :
  OutputMap_index w m key = Ok (w', ref) →
  w_nodes w' = w_nodes w ∧ w_pipelines w' = w_pipelines w
  ∧ w_inputs w' = w_inputs w ∧ w_inputMaps w' = w_inputMaps w
  ∧ (key ∈ (om_entries (w_outputMaps w m)).*1 → w' = w)
  ∧ (key ∉ (om_entries (w_outputMaps w m)).*1 →
     ref = w_next w ∧ w_next w' = S (w_next w)).
Proof.
  unfold OutputMap_index, OutputMap_insert.
  destruct (decide (key ∈ (om_entries (w_outputMaps w m)).*1)) as [Hin|Hnot].
  - rewrite bool_decide_eq_false_2 by by apply table_count_nonzero.
    destruct (table_at _ key) as [r|]; [|done]. intros [= <- <-].
    repeat split; done.
  - rewrite bool_decide_eq_true_2 by by apply table_count_zero.
    cbn [w_outputMaps]. rewrite fn_lookup_insert. cbn [om_entries].
    rewrite table_insert_fresh, table_at_app_fresh by done.
    intros [= <- <-]. repeat split; done.
Qed.

Lemma InputMap_index_frame w m key w' ref :
  InputMap_index w m key = Ok (w', ref) →
  w_nodes w' = w_nodes w ∧ w_pipelines w' = w_pipelines w
  ∧ w_outputs w' = w_outputs w ∧ w_outputMaps w' = w_outputMaps w
  ∧ (key ∈ (im_entries (w_inputMaps w m)).*1 → w' = w)
  ∧ (key ∉ (im_entries (w_inputMaps w m)).*1 →
     ref = w_next w ∧ w_next w' = S (w_next w)).
Proof.
  unfold InputMap_index, InputMap_insert.
  destruct (decide (key ∈ (im_entries (w_inputMaps w m)).*1)) as [Hin|Hnot].
  - rewrite bool_decide_eq_false_2 by by apply table_count_nonzero.
    destruct (table_at _ key) as [r|]; [|done]. intros [= <- <-].
    repeat split; done.
  - rewrite bool_decide_eq_true_2 by by apply table_count_zero.
    cbn [w_inputMaps]. rewrite fn_lookup_insert. cbn [im_entries].
    rewrite table_insert_fresh, table_at_app_fresh by done.
    intros [= <- <-]. repeat split; done.
Qed.

Lemma OutputMap_index_keeps_other w m key w' ref m' :
  OutputMap_index w m key = Ok (w', ref) → OutputMap_wf w m' → m' ≠ m →
  OutputMap_wf w' m'.
Proof.
  intros Hidx [Hnodup Hports] Hne.
  destruct (decide (key ∈ (om_entries (w_outputMaps w m)).*1)) as [Hin|Hnot].
  - apply OutputMap_index_frame in Hidx as (_ & _ & _ & _ & Hsame & _).
    rewrite (Hsame Hin). by split.
  - destruct (OutputMap_index_absent w m key Hnot)
      as (w1 & Hidx1 & _ & _ & Hold & Hmaps & _).
    apply OutputMap_index_frame in Hidx as Hframe.
    destruct Hframe as (_ & _ & _ & _ & _ & Hnext). destruct (Hnext Hnot) as [-> Hnext'].
    rewrite Hidx1 in Hidx. injection Hidx as ->.
    unfold OutputMap_wf. rewrite (Hmaps m' Hne). split; [done|].
    intros k p Hkp. destruct (Hports k p Hkp) as (Hlt & Hg & Hn).
    rewrite Hold by lia. split; [lia|done].
Qed.
End MapInvariant.

Lemma OutputMap_index_core {Q : Type} (w : World Q) (m : addr) (key : string)
    (w' : World Q) (ref : addr) :
  OutputMap_wf w m →
  OutputMap_index w m key = Ok (w', ref) →
  OutputMap_wf w' m
  ∧ (key, ref) ∈ om_entries (w_outputMaps w' m)
  ∧ out_group (w_outputs w' ref) = om_name (w_outputMaps w m)
  ∧ out_name (w_outputs w' ref) = key
  ∧ (∀ k p, (k, p) ∈ om_entries (w_outputMaps w m) →
            (k, p) ∈ om_entries (w_outputMaps w' m) ∧ w_outputs w' p = w_outputs w p).
Proof.
  intros [Hnodup Hports] Hidx.
  destruct (decide (key ∈ (om_entries (w_outputMaps w m)).*1)) as [Hin|Hnot].
  - destruct (OutputMap_index_present w m key Hin) as (ref0 & Hidx0 & _ & Href0).
    rewrite Hidx0 in Hidx. injection Hidx as <- <-.
    destruct (Hports key ref0 Href0) as (_ & Hg & Hn).
    split; [by split|]. repeat split; done.
  - destruct (OutputMap_index_absent w m key Hnot)
      as (w1 & Hidx1 & Hnew & Hmap & Hkeep & _).
    apply OutputMap_index_frame in Hidx as Hframe.
    destruct Hframe as (_ & _ & _ & _ & _ & Hnext).
    destruct (Hnext Hnot) as [-> Hnext'].
    rewrite Hidx1 in Hidx. injection Hidx as ->.
    assert (∀ k p, (k, p) ∈ om_entries (w_outputMaps w m) → w_outputs w' p = w_outputs w p)
      as Hsame.
    { intros k p Hkp. destruct (Hports k p Hkp) as (Hlt & _). apply Hkeep. lia. }
    split; [|split; [|split; [|split]]].
    + unfold OutputMap_wf. rewrite Hmap. cbn [om_entries om_name]. split.
      * rewrite fmap_app. cbn. apply NoDup_app. split; [done|].
        split; [|apply NoDup_singleton].
        intros k Hk ->%list_elem_of_singleton. done.
      * intros k p [Hkp|Hkp]%elem_of_app.
        -- destruct (Hports k p Hkp) as (Hlt & Hg & Hn).
           rewrite (Hsame k p Hkp). split; [lia|done].
        -- apply list_elem_of_singleton in Hkp. injection Hkp as -> ->.
           rewrite Hnew. split; [lia|done].
    + rewrite Hmap. cbn. apply elem_of_app. right. left.
    + by rewrite Hnew.
    + by rewrite Hnew.
    + intros k p Hkp. split; [|by apply (Hsame k p)].
      rewrite Hmap. cbn. apply elem_of_app. by left.
Qed.

(** X14.  The subscript of an output group keeps the group in order: the keys
    stay pairwise distinct and every element carries the name of the group
    as its group and its key as its name.  The port it returns is the
    element of the key, with that group and name, so it prints as the key
    alone for a group without a name and as the name of the group with the
    quoted key in brackets otherwise; the elements that were there are the
    same ports, unchanged, and every other group in order stays so. *)
Theorem OutputMap_index_keeps_wf {Q : Type} (w : World Q) (m : addr) (key : string)
    (w' : World Q) (ref : addr) :
  OutputMap_wf w m →
  OutputMap_index w m key = Ok (w', ref) →
  OutputMap_wf w' m
  ∧ (key, ref) ∈ om_entries (w_outputMaps w' m)
  ∧ out_group (w_outputs w' ref) = om_name (w_outputMaps w m)
  ∧ out_name (w_outputs w' ref) = key
  ∧ (∀ k p, (k, p) ∈ om_entries (w_outputMaps w m) →
            (k, p) ∈ om_entries (w_outputMaps w' m) ∧ w_outputs w' p = w_outputs w p)
  ∧ (∀ m', OutputMap_wf w m' → OutputMap_wf w' m')
  ∧ (om_name (w_outputMaps w m) = "" → Output_toString (w_outputs w' ref) = key)
  ∧ (om_name (w_outputMaps w m) ≠ "" →
     Output_toString (w_outputs w' ref)
     = om_name (w_outputMaps w m) +:+ "[" +:+ dquote +:+ key +:+ dquote +:+ "]").
Proof.
  intros Hwf Hidx.
  destruct (OutputMap_index_core w m key w' ref Hwf Hidx)
    as (Hwf' & Hentry & Hgroup & Hname & Hold).
  split; [done|]. split; [done|]. split; [done|]. split; [done|]. split; [done|].
  split; [|split].
  - intros m' Hwfm'. destruct (decide (m' = m)) as [->|Hne]; [done|].
    by apply (OutputMap_index_keeps_other w m key w' ref m').
  - intros Hempty. unfold Output_toString.
    rewrite Hgroup, Hempty, Hname. apply fmt_format_single.
  - intros Hnonempty. unfold Output_toString.
    rewrite Hgroup, Hname, bool_decide_eq_false_2 by done. apply fmt_format_grouped.
Qed.

Lemma InputMap_index_keeps_other {Q : Type} (w : World Q) (m : addr) (key : string)
    (w' : World Q) (ref m' : addr) :
  InputMap_index w m key = Ok (w', ref) → InputMap_wf w m' → m' ≠ m → InputMap_wf w' m'.
Proof.
  intros Hidx [Hnodup Hports] Hne.
  destruct (decide (key ∈ (im_entries (w_inputMaps w m)).*1)) as [Hin|Hnot].
  - apply InputMap_index_frame in Hidx as (_ & _ & _ & _ & Hsame & _).
    rewrite (Hsame Hin). by split.
  - destruct (InputMap_index_absent w m key Hnot)
      as (w1 & Hidx1 & _ & _ & Hold & Hmaps & _).
    apply InputMap_index_frame in Hidx as Hframe.
    destruct Hframe as (_ & _ & _ & _ & _ & Hnext). destruct (Hnext Hnot) as [-> Hnext'].
    rewrite Hidx1 in Hidx. injection Hidx as ->.
    unfold InputMap_wf. rewrite (Hmaps m' Hne). split; [done|].
    intros k p Hkp. destruct (Hports k p Hkp) as (Hlt & Hg & Hn).
    rewrite Hold by lia. split; [lia|done].
Qed.

Lemma InputMap_index_core {Q : Type} (w : World Q) (m : addr) (key : string)
    (w' : World Q) (ref : addr) :
  InputMap_wf w m →
  InputMap_index w m key = Ok (w', ref) →
  InputMap_wf w' m
  ∧ (key, ref) ∈ im_entries (w_inputMaps w' m)
  ∧ in_group (w_inputs w' ref) = im_name (w_inputMaps w m)
  ∧ in_name (w_inputs w' ref) = key
  ∧ (∀ k p, (k, p) ∈ im_entries (w_inputMaps w m) →
            (k, p) ∈ im_entries (w_inputMaps w' m) ∧ w_inputs w' p = w_inputs w p).
Proof.
  intros [Hnodup Hports] Hidx.
  destruct (decide (key ∈ (im_entries (w_inputMaps w m)).*1)) as [Hin|Hnot].
  - destruct (InputMap_index_present w m key Hin) as (ref0 & Hidx0 & _ & Href0).
    rewrite Hidx0 in Hidx. injection Hidx as <- <-.
    destruct (Hports key ref0 Href0) as (_ & Hg & Hn).
    split; [by split|]. repeat split; done.
  - destruct (InputMap_index_absent w m key Hnot)
      as (w1 & Hidx1 & Hnew & Hmap & Hkeep & _).
    apply InputMap_index_frame in Hidx as Hframe.
    destruct Hframe as (_ & _ & _ & _ & _ & Hnext).
    destruct (Hnext Hnot) as [-> Hnext'].
    rewrite Hidx1 in Hidx. injection Hidx as ->.
    assert (∀ k p, (k, p) ∈ im_entries (w_inputMaps w m) → w_inputs w' p = w_inputs w p)
      as Hsame.
    { intros k p Hkp. destruct (Hports k p Hkp) as (Hlt & _). apply Hkeep. lia. }
    split; [|split; [|split; [|split]]].
    + unfold InputMap_wf. rewrite Hmap. cbn [im_entries im_name]. split.
      * rewrite fmap_app. cbn. apply NoDup_app. split; [done|].
        split; [|apply NoDup_singleton].
        intros k Hk ->%list_elem_of_singleton. done.
      * intros k p [Hkp|Hkp]%elem_of_app.
        -- destruct (Hports k p Hkp) as (Hlt & Hg & Hn).
           rewrite (Hsame k p Hkp). split; [lia|done].
        -- apply list_elem_of_singleton in Hkp. injection Hkp as -> ->.
           rewrite Hnew. split; [lia|done].
    + rewrite Hmap. cbn. apply elem_of_app. right. left.
    + by rewrite Hnew.
    + by rewrite Hnew.
    + intros k p Hkp. split; [|by apply (Hsame k p)].
      rewrite Hmap. cbn. apply elem_of_app. by left.
Qed.

(** X15.  The subscript of an input group keeps the group in order, as the
    subscript of an output group does: distinct keys, every element with
    the name of the group as its group and its key as its name; the port
    returned is the element of the key and prints accordingly; the
    elements that were there, their queues and settings included, are
    unchanged, and every other group in order stays so. *)
Theorem InputMap_index_keeps_wf {Q : Type} (w : World Q) (m : addr) (key : string)
    (w' : World Q) (ref : addr) :
  InputMap_wf w m →
  InputMap_index w m key = Ok (w', ref) →
  InputMap_wf w' m
  ∧ (key, ref) ∈ im_entries (w_inputMaps w' m)
  ∧ in_group (w_inputs w' ref) = im_name (w_inputMaps w m)
  ∧ in_name (w_inputs w' ref) = key
  ∧ (∀ k p, (k, p) ∈ im_entries (w_inputMaps w m) →
            (k, p) ∈ im_entries (w_inputMaps w' m) ∧ w_inputs w' p = w_inputs w p)
  ∧ (∀ m', InputMap_wf w m' → InputMap_wf w' m')
  ∧ (im_name (w_inputMaps w m) = "" → Input_toString (w_inputs w' ref) = key)
  ∧ (im_name (w_inputMaps w m) ≠ "" →
     Input_toString (w_inputs w' ref)
     = im_name (w_inputMaps w m) +:+ "[" +:+ dquote +:+ key +:+ dquote +:+ "]").
Proof.
  intros Hwf Hidx.
  destruct (InputMap_index_core w m key w' ref Hwf Hidx)
    as (Hwf' & Hentry & Hgroup & Hname & Hold).
  split; [done|]. split; [done|]. split; [done|]. split; [done|]. split; [done|].
  split; [|split].
  - intros m' Hwfm'. destruct (decide (m' = m)) as [->|Hne]; [done|].
    by apply (InputMap_index_keeps_other w m key w' ref m').
  - intros Hempty. unfold Input_toString.
    rewrite Hgroup, Hempty, Hname. apply fmt_format_single.
  - intros Hnonempty. unfold Input_toString.
    rewrite Hgroup, Hname, bool_decide_eq_false_2 by done. apply fmt_format_grouped.
Qed.

(** A group as its constructors leave it, with or without a name, is in
    order. *)
Lemma new_group_wf {Q : Type} (w : World Q) (m : addr) (name : string)
    (defaultOutput : Output) (defaultInput : Input Q) :
  (w_outputMaps w m = OutputMap_new name defaultOutput
   ∨ w_outputMaps w m = OutputMap_new_unnamed defaultOutput → OutputMap_wf w m)
  ∧ (w_inputMaps w m = InputMap_new name defaultInput
     ∨ w_inputMaps w m = InputMap_new_unnamed defaultInput → InputMap_wf w m).
Proof.
  split; intros [Hm|Hm]; unfold OutputMap_wf, InputMap_wf; rewrite Hm; cbn;
    (split; [constructor|]); intros k p Hin; by apply elem_of_nil in Hin.
Qed.

Lemma OutputMap_index_keeps_wf_witness :
  ∃ w', OutputMap_index demo_world 60 "k" = Ok (w', 50)
    ∧ Output_toString (w_outputs w' 50) = "outs[" +:+ dquote +:+ "k" +:+ dquote +:+ "]"
    ∧ OutputMap_wf w' 60.
Proof.
  eexists. split; [reflexivity|].
  match goal with
  | |- context [w_outputs ?w' 50] =>
      destruct (OutputMap_index_keeps_wf demo_world 60 "k" w' 50)
        as (Hwf' & _ & _ & _ & _ & _ & _ & Hstr)
  end.
  - split; [constructor|]. intros k p Hin. by apply elem_of_nil in Hin.
  - reflexivity.
  - split; [apply Hstr; discriminate|exact Hwf'].
Defined.

Lemma demo_input_group_wf : InputMap_wf demo_world 40.
Proof.
  split; [apply NoDup_singleton|].
  intros k p Hin. apply list_elem_of_singleton in Hin. injection Hin as -> ->.
  split; [vm_compute; lia|split; reflexivity].
Defined.

Lemma InputMap_index_keeps_wf_witness :
  ∃ w', InputMap_index demo_world 40 "y" = Ok (w', 50)
    ∧ Input_toString (w_inputs w' 50) = "in[" +:+ dquote +:+ "y" +:+ dquote +:+ "]"
    ∧ w_inputs w' 33 = w_inputs demo_world 33
    ∧ InputMap_wf w' 40.
Proof.
  eexists. split; [reflexivity|].
  match goal with
  | |- context [w_inputs ?w' 50] =>
      destruct (InputMap_index_keeps_wf demo_world 40 "y" w' 50)
        as (Hwf' & _ & _ & _ & Hold & _ & _ & Hstr)
  end.
  - apply demo_input_group_wf.
  - reflexivity.
  - split; [apply Hstr; discriminate|].
    split; [|exact Hwf']. apply (Hold "x" 33). left.
Defined.

(** X16.  An input materialised in a group that the node has registered is one
    of the ports of the node at once: it is enumerated, a lookup with the
    name of the group and the key finds a port with that group and name,
    and a connection whose input end is the identifier of the node, the
    name of the group and the key leads to it. *)
Theorem materialised_input_is_wired {Q : Type} (w : World Q) (n : addr) (g : string)
    (m : addr) (key : string) (w' : World Q) (ref : addr)
    (pl : PipelineImpl) (conn : Connection) :
  InputMap_wf w m →
  (g, m) ∈ inputMapRefs (w_nodes w n) →
  InputMap_index w m key = Ok (w', ref) →
  Pipeline_getNode pl (inputId conn) = Some n →
  inputGroup conn = im_name (w_inputMaps w m) →
  inputName conn = key →
  ref ∈ Node_getInputRefs w' (w_nodes w' n)
  ∧ (∃ q, Node_getInputRef2 w' (w_nodes w' n) (im_name (w_inputMaps w m)) key = Some q
          ∧ in_group (w_inputs w' q) = im_name (w_inputMaps w m)
          ∧ in_name (w_inputs w' q) = key)
  ∧ ref ∈ connection_targets w' pl conn.
Proof.
  intros Hwf Hreg Hidx Hnode Hgroup Hname.
  destruct (InputMap_index_core w m key w' ref Hwf Hidx)
    as (_ & Hentry & Hg & Hn & _).
  apply InputMap_index_frame in Hidx as (Hnodes & _).
  assert (ref ∈ Node_getInputRefs w' (w_nodes w' n)) as Href.
  { rewrite getInputRefs_eq.
    apply (elem_of_enumeration _ _ (λ m, im_entries (w_inputMaps w' m))).
    right. exists g, m, key. by rewrite Hnodes. }
  split; [done|]. split.
  - by apply (scan_inputs_finds w' _ _ _ ref).
  - unfold connection_targets. rewrite Hnode. apply list_elem_of_filter.
    split; [|done]. unfold matches. by rewrite Hg, Hn, Hgroup, Hname.
Qed.

Lemma materialised_input_is_wired_witness :
  ∃ w', InputMap_index demo_world 40 "y" = Ok (w', 50)
    ∧ 50 ∈ Node_getInputRefs w' (w_nodes w' 11)
    ∧ 50 ∈ connection_targets w' (mkPipelineImpl {[ 2%Z := 11 ]} [])
                              (demo_connection "y" "in").
Proof.
  eexists. split; [reflexivity|].
  match goal with
  | |- context [Node_getInputRefs ?w' _] =>
      destruct (materialised_input_is_wired demo_world 11 "in" 40 "y" w' 50
                  (mkPipelineImpl {[ 2%Z := 11 ]} []) (demo_connection "y" "in"))
        as (Href & _ & Htarget)
  end.
  - apply demo_input_group_wf.
  - left.
  - reflexivity.
  - reflexivity.
  - reflexivity.
  - reflexivity.
  - split; [exact Href|exact Htarget].
Defined.

(** ** Copies of the ports *)

(** X17.  [getOutputs] and [getInputs] return, in the order of the enumeration,
    the ports the references point to; a lookup by group and name answers
    null exactly when no port of these lists has the group and the name. *)
Theorem getPorts_copies_of_refs {Q : Type} (w : World Q) (n : Node) (group name : string) :
  Node_getOutputs w n = w_outputs w <$> Node_getOutputRefs w n
  ∧ Node_getInputs w n = w_inputs w <$> Node_getInputRefs w n
  ∧ (Node_getOutputRef2 w n group name = None
     ↔ ∀ o, o ∈ Node_getOutputs w n → ¬ (out_group o = group ∧ out_name o = name))
  ∧ (Node_getInputRef2 w n group name = None
     ↔ ∀ i, i ∈ Node_getInputs w n → ¬ (in_group i = group ∧ in_name i = name)).
Proof.
  assert (Node_getOutputs w n = w_outputs w <$> Node_getOutputRefs w n) as Hout.
  { unfold Node_getOutputs. by rewrite (fold_left_push_map (w_outputs w)). }
  assert (Node_getInputs w n = w_inputs w <$> Node_getInputRefs w n) as Hin.
  { unfold Node_getInputs. by rewrite (fold_left_push_map (w_inputs w)). }
  split; [done|]. split; [done|]. rewrite Hout, Hin. split.
  - unfold Node_getOutputRef2.
    pose proof (scan_outputs_spec w (Node_getOutputRefs w n) group name) as Hscan.
    destruct (scan_outputs w (Node_getOutputRefs w n) group name) as [q|].
    + split; [done|]. intros Hnone. exfalso.
      destruct Hscan as (before & after & Hrefs & Hg & Hn & _).
      apply (Hnone (w_outputs w q)); [|done].
      apply list_elem_of_fmap_2. rewrite Hrefs. apply elem_of_app. right. left.
    + split; [|done]. intros _ o (p & -> & Hp)%list_elem_of_fmap.
      rewrite Forall_forall in Hscan. by apply Hscan.
  - unfold Node_getInputRef2.
    pose proof (scan_inputs_spec w (Node_getInputRefs w n) group name) as Hscan.
    destruct (scan_inputs w (Node_getInputRefs w n) group name) as [q|].
    + split; [done|]. intros Hnone. exfalso.
      destruct Hscan as (before & after & Hrefs & Hg & Hn & _).
      apply (Hnone (w_inputs w q)); [|done].
      apply list_elem_of_fmap_2. rewrite Hrefs. apply elem_of_app. right. left.
    + split; [|done]. intros _ i (p & -> & Hp)%list_elem_of_fmap.
      rewrite Forall_forall in Hscan. by apply Hscan.
Qed.

(** ** What the printed form of a port tells *)

Lemma append_cons (c : ascii) (s t : string) : String c s +:+ t = String c (s +:+ t).
Proof. reflexivity. Qed.

Lemma length_append (s t : string) :
  String.length (s +:+ t) = String.length s + String.length t.
Proof.
  induction s as [|c s IH]; [done|]. rewrite append_cons. cbn. by rewrite IH.
Qed.

Lemma append_inj_r (s1 s2 t : string) : s1 +:+ t = s2 +:+ t → s1 = s2.
Proof.
  revert s2. induction s1 as [|c1 s1 IH]; intros [|c2 s2] Heq.
  - done.
  - apply (f_equal String.length) in Heq.
    rewrite !length_append in Heq. cbn in Heq. lia.
  - apply (f_equal String.length) in Heq.
    rewrite !length_append in Heq. cbn in Heq. lia.
  - rewrite !append_cons in Heq. injection Heq as -> Heq. f_equal. by apply IH.
Qed.

(** X18.  Within one group the printed form tells the ports apart: two outputs
    of the same group that print alike have the same name.  Across groups
    it does not: an ungrouped port whose name is the printed form of a
    grouped port prints like that port.  An input and an output with the
    same group and name print alike. *)
Theorem toString_within_group {Q : Type} (o1 o2 : Output) (i : Input Q) :
  (out_group o1 = out_group o2 → Output_toString o1 = Output_toString o2 →
   out_name o1 = out_name o2)
  ∧ (out_group o1 ≠ "" →
     mkOutput (out_parent o1) "" (Output_toString o1) ≠ o1
     ∧ Output_toString (mkOutput (out_parent o1) "" (Output_toString o1))
       = Output_toString o1)
  ∧ (in_group i = out_group o1 → in_name i = out_name o1 →
     Input_toString i = Output_toString o1).
Proof.
  split; [|split].
  - intros Hgroup. unfold Output_toString. rewrite Hgroup.
    destruct (bool_decide (out_group o2 = "")).
    + by rewrite !fmt_format_single.
    + rewrite !fmt_format_grouped. intros Heq.
      apply (inj (String.append _)) in Heq. apply (inj (String.append _)) in Heq.
      apply (inj (String.append _)) in Heq. by apply append_inj_r in Heq.
  - intros Hgroup. split.
    + intros Heq. apply Hgroup. by rewrite <- Heq.
    + unfold Output_toString at 1. cbn. apply fmt_format_single.
  - intros Hgroup Hname. unfold Input_toString, Output_toString.
    by rewrite Hgroup, Hname.
Qed.

Lemma toString_within_group_witness :
  Output_toString (mkOutput 10 "" (Output_toString (mkOutput 10 "g" "a")))
  = Output_toString (mkOutput 10 "g" "a")
  ∧ Input_toString (demo_input "g" "a" [] 2) = Output_toString (mkOutput 10 "g" "a").
Proof.
  destruct (toString_within_group (mkOutput 10 "g" "a") (mkOutput 10 "g" "a")
              (demo_input "g" "a" [] 2)) as (_ & Hprint & Hsame).
  split; [apply Hprint; discriminate|by apply Hsame].
Defined.

(** ** Ports on the same pipeline *)

(** X19.  When [isSamePipeline] answers true, the nodes of the output and of the
    input give the same live pipeline, so the query of the connections of
    the output does not throw. *)
Theorem isSamePipeline_gives_pipeline {Q : Type} (w : World Q) (o : Output) (i : Input Q) :
  Output_isSamePipeline w o i = true →
  ∃ pl conns,
    Node_getParentPipeline w (w_nodes w (out_parent o)) = Ok pl
    ∧ Node_getParentPipeline w (w_nodes w (in_parent i)) = Ok pl
    ∧ Output_getConnections w o = Ok conns.
Proof.
  unfold Output_isSamePipeline. intros Hsame.
  destruct (weak_lock w (node_parent (w_nodes w (out_parent o)))) as [p|] eqn:Hout;
    [|done].
  apply bool_decide_eq_true in Hsame. symmetry in Hsame.
  apply weak_lock_Some in Hout as [Hp [pl Hpl]].
  apply weak_lock_Some in Hsame as [Hp' _].
  destruct (getConnections_elem_of w o pl Hpl) as (conns & Hconns & _).
  exists pl, conns. unfold Node_getParentPipeline.
  by rewrite Hp', <- Hp, Hpl.
Qed.

Lemma isSamePipeline_gives_pipeline_witness :
  ∃ pl conns,
    Node_getParentPipeline demo_world (w_nodes demo_world 10) = Ok pl
    ∧ Node_getParentPipeline demo_world (w_nodes demo_world 11) = Ok pl
    ∧ Output_getConnections demo_world demo_out = Ok conns.
Proof.
  apply (isSamePipeline_gives_pipeline demo_world demo_out (demo_input "" "a" [] 2)).
  reflexivity.
Defined.
